(** * A shallow embedding of the Automata-GBA world model (src/src/main.rs)

    The forward-star graph ([Graph], [add_node], [add_edge], [successors]),
    the toroidal grid builder [new_world], the cursor, the neighbour count,
    the generation update of the [Running] state, the rule-menu actions of
    the [Config] state and the save/load codec over SRAM bytes.

    Conventions of the model:
    - [usize] and [u16] indices are [nat]; [u16]/[u8] data values are [Z];
    - a Rust panic (index out of bounds, [expect] on an [Err]) and a loop that
      never terminates are both [None] in the option-valued functions;
    - a [Vec] is a [list]; [v[i]] is stdpp's lookup [v !! i] (panicking out of
      range), [v[i] = x] is stdpp's [<[i:=x]> v] after the bounds check. *)

From Stdlib Require Import ZArith Lia.
From stdpp Require Import base list.

Open Scope Z_scope.
Open Scope nat_scope.

(** ** Data model (main.rs lines 37-98) *)

(** [agb::input::Button]. *)
Inductive Button :=
  A | B | SELECT | START | RIGHT | LEFT | UP | DOWN | R | L.

#[global] Instance Button_eq_dec : EqDecision Button.
Proof. solve_decision. Defined.

Inductive CellState := Dead | Live.

#[global] Instance CellState_eq_dec : EqDecision CellState.
Proof. solve_decision. Defined.

(** [impl From<u16> for CellState]: [0 => Dead, 1 => Live, _ => Dead]. *)
Definition CellState_from_u16 (item : Z) : CellState :=
  match item with
  | 0%Z => Dead
  | 1%Z => Live
  | _ => Dead
  end.

(** [s as u16] / [s as usize]: the enum discriminant. *)
Definition CellState_as_num (s : CellState) : nat :=
  match s with Dead => 0 | Live => 1 end.

(** [impl Not for CellState]. *)
Definition CellState_not (s : CellState) : CellState :=
  match s with Dead => Live | Live => Dead end.

Inductive MenuType := New | Save | Load.

Inductive NodeType :=
  | Cell (s : CellState)
  | Menu (m : MenuType).

#[global] Instance MenuType_eq_dec : EqDecision MenuType.
Proof. solve_decision. Defined.
#[global] Instance NodeType_eq_dec : EqDecision NodeType.
Proof. solve_decision. Defined.

Record NodeData := mkNode {
  state : NodeType;
  x : nat;
  y : nat;
  first_outgoing_edge : option nat
}.

Record EdgeData := mkEdge {
  direction : option Button;
  target : nat;
  next_outgoing_edge : option nat
}.

Record Graph := mkGraph {
  nodes : list NodeData;
  edges : list EdgeData
}.

(** ** Graph operations (main.rs lines 100-159) *)

(** [Graph::new]. *)
Definition Graph_new : Graph := mkGraph [] [].

(** [Graph::add_node]: appends the node, returns its index. *)
Definition add_node (g : Graph) (x y : nat) (st : NodeType) : Graph * nat :=
  (mkGraph (nodes g ++ [mkNode st x y None]) (edges g), length (nodes g)).

(** [Graph::add_edge]: [&mut self.nodes[source]] panics when [source] is out
    of bounds; the new edge is pushed and becomes the head of the list of
    [source]. The target is not checked. *)
Definition add_edge (g : Graph) (source target : nat) (direction : option Button)
    : option Graph :=
  let edge_index := length (edges g) in
  node_data ← nodes g !! source;
  let e := mkEdge direction target (first_outgoing_edge node_data) in
  let node_data' := mkNode (state node_data) (x node_data) (y node_data)
                           (Some edge_index) in
  Some (mkGraph (<[source := node_data']> (nodes g)) (edges g ++ [e])).

(** The walk of [impl Iterator for Successors] along [next_outgoing_edge],
    returning the edges it visits. [self.graph.edges[edge_num]] panics out of
    bounds. The iterator has no bound of its own: [fuel] counts the edges
    still allowed, and is started at the number of edges; a walk of more
    edges than there are visits one twice, hence runs forever, and that is
    the [None] of [fuel = 0]. *)
Fixpoint edge_chain (fuel : nat) (es : list EdgeData) (cur : option nat)
    : option (list EdgeData) :=
  match cur with
  | None => Some []
  | Some edge_num =>
      match fuel with
      | O => None
      | S fuel' =>
          edge ← es !! edge_num;
          rest ← edge_chain fuel' es (next_outgoing_edge edge);
          Some (edge :: rest)
      end
  end.

(** The out-edges of [source] in the order the linked list holds them. *)
Definition out_edges (g : Graph) (source : nat) : option (list EdgeData) :=
  nd ← nodes g !! source;
  edge_chain (length (edges g)) (edges g) (first_outgoing_edge nd).

(** [Graph::successors], collected: the targets the iterator yields. *)
Definition successors (g : Graph) (source : nat) : option (list nat) :=
  es ← out_edges g source;
  Some (map target es).

(** [Graph::living_neighbors_count_of]: [n += s as u16] for a [Cell(s)]
    successor, [n = n] otherwise; [self.nodes[e]] panics out of bounds. The
    counter [n] is a [u16]: the addition overflows (a panic, with Rust's
    overflow checks) once the sum reaches 2^16. *)
Fixpoint count_living (ns : list NodeData) (succ : list nat) (n : nat)
    : option nat :=
  match succ with
  | [] => Some n
  | e :: rest =>
      nd ← ns !! e;
      match state nd with
      | Cell s =>
          let n' := n + CellState_as_num s in
          if 2 ^ 16 <=? n' then None else count_living ns rest n'
      | _ => count_living ns rest n
      end
  end.

Definition living_neighbors_count_of (g : Graph) (source : nat) : option nat :=
  succ ← successors g source;
  count_living (nodes g) succ 0.

(** ** The cursor (main.rs lines 161-222) *)

(** The [loop] of [Cursor::move_cursor]: the first edge whose direction is
    [Some b] with [b == button] moves the cursor to its target, the end of
    the list leaves it in place. [fuel] as in [edge_chain]. *)
Fixpoint move_loop (fuel : nat) (es : list EdgeData) (maybe_edge : option nat)
    (node : nat) (button : Button) : option nat :=
  match maybe_edge with
  | None => Some node
  | Some edge_index =>
      match fuel with
      | O => None
      | S fuel' =>
          e ← es !! edge_index;
          match direction e with
          | Some b =>
              if decide (b = button) then Some (target e)
              else move_loop fuel' es (next_outgoing_edge e) node button
          | None => move_loop fuel' es (next_outgoing_edge e) node button
          end
      end
  end.

(** [Cursor::move_cursor] on the cursor's node: returns the new [self.node].
    [graph.nodes[self.node]] panics out of bounds, before the loop and again
    in [redraw]. *)
Definition move_cursor (g : Graph) (node : nat) (button : Button) : option nat :=
  nd ← nodes g !! node;
  node' ← move_loop (length (edges g)) (edges g) (first_outgoing_edge nd)
                    node button;
  _ ← nodes g !! node';
  Some node'.

(** ** The toroidal grid (main.rs lines 224-248) *)

(** [for x in l { ... }] over a body that may panic. *)
Fixpoint for_each {A B} (l : list B) (body : A -> B -> option A) (a : A)
    : option A :=
  match l with
  | [] => Some a
  | b :: l' => a' ← body a b; for_each l' body a'
  end.

Definition n_right (width height i j : nat) : nat :=
  (i + 1) mod width + j * width.
Definition n_down (width height i j : nat) : nat :=
  ((j + 1) mod height) * width + i.
Definition n_down_right (width height i j : nat) : nat :=
  ((j + 1) mod height) * width + (i + 1) mod width.
(** [(i as isize - 1).rem_euclid(width as isize) as usize]. *)
Definition n_down_left (width height i j : nat) : nat :=
  ((j + 1) mod height) * width
  + Z.to_nat (Z.modulo (Z.of_nat i - 1) (Z.of_nat width)).
Definition n_here (width height i j : nat) : nat := j * width + i.

(** The body of the inner loop of [new_world]: eight [add_edge] calls. *)
Definition add_cell_edges (width height : nat) (g : Graph) (i j : nat)
    : option Graph :=
  let n := n_here width height i j in
  let nr := n_right width height i j in
  let nd := n_down width height i j in
  let ndr := n_down_right width height i j in
  let ndl := n_down_left width height i j in
  g ← add_edge g n nr (Some RIGHT);
  g ← add_edge g nr n (Some LEFT);
  g ← add_edge g n nd (Some DOWN);
  g ← add_edge g nd n (Some UP);
  g ← add_edge g n ndr None;
  g ← add_edge g ndr n None;
  g ← add_edge g n ndl None;
  add_edge g ndl n None.

(** [new_world(width, height)]. The first [u16] operation is
    [width*height]; it overflows (a panic) once the product reaches 2^16.
    When it does not, every later [u16] value ([i+1], [j+1], [j*width+i],
    the neighbour indices) is below [width*height] and stays in range, so
    they are computed on [nat]. *)
Definition new_world (width height : nat) : option Graph :=
  if 2 ^ 16 <=? width * height then None else
  let g := for_each (seq 0 (width * height))
             (fun g i => Some (fst (add_node g (i mod width) (i / width) (Cell Dead))))
             Graph_new in
  g ← g;
  for_each (seq 0 width)
    (fun g i => for_each (seq 0 height) (fun g j => add_cell_edges width height g i j) g)
    g.

(** ** Graphs built by a sequence of [add_node] / [add_edge] calls *)

Inductive graph_op :=
  | OpNode (x y : nat) (st : NodeType)
  | OpEdge (source target : nat) (direction : option Button).

Definition run_op (g : Graph) (o : graph_op) : option Graph :=
  match o with
  | OpNode x y st => Some (fst (add_node g x y st))
  | OpEdge s t d => add_edge g s t d
  end.

Definition run_ops (ops : list graph_op) (g : Graph) : option Graph :=
  for_each ops run_op g.

(** The [(direction, target)] pairs of the edges added with source [s], in
    insertion order. *)
Fixpoint edges_from (s : nat) (ops : list graph_op) : list (option Button * nat) :=
  match ops with
  | [] => []
  | OpEdge s' t d :: ops' =>
      if decide (s' = s) then (d, t) :: edges_from s ops' else edges_from s ops'
  | OpNode _ _ _ :: ops' => edges_from s ops'
  end.

Fixpoint node_count (ops : list graph_op) : nat :=
  match ops with
  | [] => 0
  | OpNode _ _ _ :: ops' => S (node_count ops')
  | OpEdge _ _ _ :: ops' => node_count ops'
  end.

Definition edge_view (e : EdgeData) : option Button * nat := (direction e, target e).

Definition cell_edge_ops (width height i j : nat) : list graph_op :=
  let n := n_here width height i j in
  let nr := n_right width height i j in
  let nd := n_down width height i j in
  let ndr := n_down_right width height i j in
  let ndl := n_down_left width height i j in
  [OpEdge n nr (Some RIGHT); OpEdge nr n (Some LEFT);
   OpEdge n nd (Some DOWN); OpEdge nd n (Some UP);
   OpEdge n ndr None; OpEdge ndr n None;
   OpEdge n ndl None; OpEdge ndl n None].

Definition world_ops (width height : nat) : list graph_op :=
  map (fun i => OpNode (i mod width) (i / width) (Cell Dead)) (seq 0 (width * height))
  ++ flat_map (fun i => flat_map (fun j => cell_edge_ops width height i j) (seq 0 height))
              (seq 0 width).

(** ** Settings and the generation update (main.rs lines 10-11, 369-380, 652-678) *)

Definition WIDTH : nat := 30.
Definition HEIGHT : nat := 20.

(** [Settings::rules : [[u16;9];2]], row-major; [rules_wf] is the shape the
    array type fixes. *)
Abbreviation Rules := (list (list Z)) (only parsing).

Definition rules_wf (rules : Rules) : Prop :=
  length rules = 2 /\ Forall (fun row => length row = 9) rules.

(** The initial table of [main] ("Settings for Conway's Game of Life"). *)
Definition conway_rules : Rules :=
  [[0;0;0;1;0;0;0;0;0]; [0;0;1;1;0;0;0;0;0]]%Z.

(** [rules[r][c]], panicking out of bounds. *)
Definition rule_at (rules : Rules) (r c : nat) : option Z :=
  row ← rules !! r; row !! c.

(** [rules[r][c] = v], panicking out of bounds. *)
Definition rule_set (rules : Rules) (r c : nat) (v : Z) : option Rules :=
  row ← rules !! r;
  _ ← row !! c;
  Some (<[r := <[c := v]> row]> rules).

(** [graph.nodes[i].state = st] for an index in bounds. *)
Definition set_state (g : Graph) (i : nat) (st : NodeType) : Graph :=
  mkGraph (alter (fun nd => mkNode st (x nd) (y nd) (first_outgoing_edge nd)) i (nodes g))
          (edges g).

(** First loop: [neighbors[i] = graph.living_neighbors_count_of(i)] into the
    array [[0; HEIGHT*WIDTH]]; [neighbors[i]] panics past its length. *)
Definition step_neighbors (g : Graph) : option (list nat) :=
  for_each (seq 0 (length (nodes g)))
    (fun nb i =>
       c ← living_neighbors_count_of g i;
       if decide (i < length nb) then Some (<[i := c]> nb) else None)
    (repeat 0 (HEIGHT * WIDTH)).

(** Second loop: each [Cell(s)] node becomes
    [Cell(rules[s as usize][neighbors[i] as usize].into())]; other nodes are
    left alone. (The tile refresh is rendering and not modelled.) *)
Definition step_update (g : Graph) (rules : Rules) (neighbors : list nat)
    : option Graph :=
  for_each (seq 0 (length (nodes g)))
    (fun g i =>
       nd ← nodes g !! i;
       match state nd with
       | Cell s =>
           nb ← neighbors !! i;
           r ← rule_at rules (CellState_as_num s) nb;
           Some (set_state g i (Cell (CellState_from_u16 r)))
       | _ => Some g
       end)
    g.

(** One generation of the [GameState::Running] branch. *)
Definition step (g : Graph) (rules : Rules) : option Graph :=
  neighbors ← step_neighbors g;
  step_update g rules neighbors.

(** ** Save and load (main.rs lines 388-455) *)

(** [agb::save::Error]. *)
Inductive SaveError := OutOfBounds | NoMedia | WriteError.

(** The state [load_world] and [save_world] act on: the SRAM bytes, the world
    graph and the rule table. *)
Record World := mkWorld {
  sram : list Z;
  world : Graph;
  rules : Rules
}.

(** Code returning [Result<_, Error>] that may also panic: [None] is a panic,
    [inr e] is an [Err(e)] returned by [?] (writes already done stay done). *)
Definition SM (R : Type) : Type := World -> option (World * (R + SaveError)).

Definition sm_ret {R} (v : R) : SM R := fun w => Some (w, inl v).

Definition sm_bind {R S} (m : SM R) (k : R -> SM S) : SM S :=
  fun w =>
    match m w with
    | None => None
    | Some (w', inl v) => k v w'
    | Some (w', inr e) => Some (w', inr e)
    end.

Notation "x <-? m ;; k" := (sm_bind m (fun x => k))
  (at level 95, m at next level, right associativity).

(** An indexing that may panic. *)
Definition sm_lift {R} (o : option R) : SM R :=
  fun w => match o with Some v => Some (w, inl v) | None => None end.

Definition sm_modify (f : World -> World) : SM unit :=
  fun w => Some (f w, inl tt).

Definition sm_get : SM World := fun w => Some (w, inl w).

Fixpoint sm_for {B} (l : list B) (body : B -> SM unit) : SM unit :=
  match l with
  | [] => sm_ret tt
  | b :: l' => _ <-? body b ;; sm_for l' body
  end.

(** [access.read(offset, slice_of_one_byte)?]: out of the medium is
    [Err(OutOfBounds)]. [save.access()] on the SRAM that [main] initialises
    always succeeds. *)
Definition sram_read (offset : nat) : SM Z :=
  fun w => match sram w !! offset with
           | Some b => Some (w, inl b)
           | None => Some (w, inr OutOfBounds)
           end.

(** [access.prepare_write(i..i+1)?.write(i, &[b])?]. *)
Definition sram_write (offset : nat) (b : Z) : SM unit :=
  fun w => if decide (offset < length (sram w))
           then Some (mkWorld (<[offset := b]> (sram w)) (world w) (rules w), inl tt)
           else Some (w, inr OutOfBounds).

(** [b'L'], [b'D'], [b'X']. *)
Definition byte_L : Z := 76%Z.
Definition byte_D : Z := 68%Z.
Definition byte_X : Z := 88%Z.

Definition cell_marker (st : NodeType) : Z :=
  match st with
  | Cell Live => byte_L
  | Cell Dead => byte_D
  | _ => byte_X
  end.

(** [match b { b'L' => Cell(Live), _ => Cell(Dead) }]. *)
Definition decode_cell (b : Z) : NodeType :=
  if decide (b = byte_L) then Cell Live else Cell Dead.

Definition set_world_state (i : nat) (st : NodeType) (w : World) : World :=
  mkWorld (sram w) (set_state (world w) i st) (rules w).

Definition set_rules (r : Rules) (w : World) : World :=
  mkWorld (sram w) (world w) r.

(** [load_world]. The rule bytes are stored with [b.into()] from [u8] to
    [u16]: the table receives the byte value itself. *)
Definition load_world : SM unit :=
  is_save <-? sram_read 0 ;;
  if decide (is_save <> 0%Z) then
    w0 <-? sm_get ;;
    let i := length (nodes (world w0)) in
    _ <-? sm_for (seq 0 i)
            (fun i => b <-? sram_read i ;; sm_modify (set_world_state i (decode_cell b))) ;;
    row0 <-? sm_lift (rules w0 !! 0) ;;
    let j := length row0 in
    _ <-? sm_for (seq 0 j)
            (fun j => b <-? sram_read (i + j) ;;
                      w <-? sm_get ;;
                      r <-? sm_lift (rule_set (rules w) 0 j b) ;;
                      sm_modify (set_rules r)) ;;
    sm_for (seq 0 j)
      (fun k => b <-? sram_read (i + j + k) ;;
                w <-? sm_get ;;
                r <-? sm_lift (rule_set (rules w) 1 k b) ;;
                sm_modify (set_rules r))
  else sm_ret tt.

(** [v as u8] for a [u16] value. *)
Definition as_u8 (v : Z) : Z := Z.land v 255.

(** [save_world]. *)
Definition save_world : SM unit :=
  is_save <-? sram_read 0 ;;
  if decide (is_save <> 0%Z) then
    w0 <-? sm_get ;;
    let i := length (nodes (world w0)) in
    _ <-? sm_for (seq 0 i)
            (fun i => nd <-? sm_lift (nodes (world w0) !! i) ;;
                      sram_write i (cell_marker (state nd))) ;;
    row0 <-? sm_lift (rules w0 !! 0) ;;
    let j := length row0 in
    _ <-? sm_for (seq 0 j)
            (fun j => v <-? sm_lift (row0 !! j) ;; sram_write (i + j) (as_u8 v)) ;;
    row1 <-? sm_lift (rules w0 !! 1) ;;
    sm_for (seq 0 (length row1))
      (fun k => v <-? sm_lift (row1 !! k) ;; sram_write (i + j + k) (as_u8 v))
  else sm_ret tt.

(** ** The A button in [GameState::Config] (main.rs lines 722-775) *)

(** [settings.window_x], [window_y], [rules_offset_x], [rules_offset_y]. *)
Definition window_x : nat := WIDTH / 4.
Definition window_y : nat := HEIGHT / 4 - 3.
Definition rules_offset_x : nat := 3.
Definition rules_offset_y : nat := 3.

(** [a - b] on [u16], panicking below zero. *)
Definition u16_sub (a b : nat) : option nat :=
  if decide (b <= a) then Some (a - b) else None.

(** "Default to Conway's Game of Life rules": every entry set to [0], then
    [rules[0][3]], [rules[1][2]], [rules[1][3]] set to [1]. *)
Definition reset_rules (rules : Rules) : option Rules :=
  row0 ← rules !! 0;
  r ← for_each (seq 0 (length rules))
        (fun r i => for_each (seq 0 (length row0)) (fun r j => rule_set r i j 0%Z) r)
        rules;
  r ← rule_set r 0 3 1%Z;
  r ← rule_set r 1 2 1%Z;
  rule_set r 1 3 1%Z.

(** [New => for cell in &mut graph.nodes { cell.state = Cell(Dead); ...reset
    the rules... }]: the reset sits inside the loop over the cells. *)
Definition menu_new (w : World) : option World :=
  for_each (seq 0 (length (nodes (world w))))
    (fun w i =>
       let w := set_world_state i (Cell Dead) w in
       r ← reset_rules (rules w);
       Some (set_rules r w))
    w.

(** The A press on the rule-editing graph [gs] with the cursor on [cursor];
    returns the new [gs] and world. [Save] and [Load] [expect] success. *)
Definition config_press_a (gs : Graph) (cursor : nat) (w : World)
    : option (Graph * World) :=
  n ← nodes gs !! cursor;
  match state n with
  | Menu New => w' ← menu_new w; Some (gs, w')
  | Menu Save =>
      match save_world w with
      | Some (w', inl _) => Some (gs, w')
      | _ => None
      end
  | Menu Load =>
      match load_world w with
      | Some (w', inl _) => Some (gs, w')
      | _ => None
      end
  | Cell s =>
      let gs' := set_state gs cursor (Cell (CellState_not s)) in
      dy ← u16_sub (y n) window_y; ry ← u16_sub dy rules_offset_y;
      dx ← u16_sub (x n) window_x; rx ← u16_sub dx rules_offset_x;
      v ← rule_at (rules w) ry rx;
      r ← rule_set (rules w) ry rx (if decide (v <> 0%Z) then 0%Z else 1%Z);
      Some (gs', set_rules r w)
  end.

(** * Proofs *)

(** ** Loops and edge lists *)

Lemma for_each_app {A B} (l1 l2 : list B) (body : A -> B -> option A) (a : A) :
  for_each (l1 ++ l2) body a = (a' ← for_each l1 body a; for_each l2 body a').
Proof.
  revert a. induction l1 as [|b l1 IH]; intros a; simpl; [done|].
  destruct (body a b); simpl; [apply IH|done].
Qed.

Lemma edge_chain_none fuel es : edge_chain fuel es None = Some [].
Proof. by destruct fuel. Qed.

(** A walk that succeeds still succeeds, with the same edges, with more fuel
    and more edges pushed behind the ones it reads. *)
Lemma edge_chain_extend fuel k es es' cur l :
  edge_chain fuel es cur = Some l ->
  edge_chain (fuel + k) (es ++ es') cur = Some l.
Proof.
  revert cur l. induction fuel as [|fuel IH]; intros cur l H;
    (destruct cur as [n|];
     [|destruct (_ + k); simpl in *; congruence]); simpl in *; [done|].
  destruct (es !! n) as [e|] eqn:He; simpl in H; [|done].
  rewrite (lookup_app_l_Some _ _ _ _ He). simpl.
  destruct (edge_chain fuel es (next_outgoing_edge e)) as [r|] eqn:Hr;
    simpl in H; [|done].
  rewrite (IH _ _ Hr). simpl. done.
Qed.

Lemma edges_from_app s ops1 ops2 :
  edges_from s (ops1 ++ ops2) = edges_from s ops1 ++ edges_from s ops2.
Proof.
  induction ops1 as [|[] ops1 IH]; simpl; [done|done|].
  case_decide; simpl; by rewrite IH.
Qed.

Lemma node_count_app ops1 ops2 :
  node_count (ops1 ++ ops2) = node_count ops1 + node_count ops2.
Proof. induction ops1 as [|[] ops1 IH]; simpl; lia. Qed.

(** What a sequence of [add_node]/[add_edge] calls leaves: one node per
    [add_node], and for every node the walk of its list reads the edges added
    with it as source, last added first. *)
Definition built_inv (ops : list graph_op) (g : Graph) : Prop :=
  length (nodes g) = node_count ops /\
  (forall s, length (nodes g) <= s -> edges_from s ops = []) /\
  (forall s, s < length (nodes g) ->
     exists nd, nodes g !! s = Some nd /\
       option_map (map edge_view)
         (edge_chain (length (edges g)) (edges g) (first_outgoing_edge nd))
       = Some (rev (edges_from s ops))).

Lemma built_inv_nil : built_inv [] Graph_new.
Proof.
  split; [done|]. split; [done|]. simpl. intros s Hs. lia.
Qed.

Lemma built_inv_snoc ops o g g' :
  built_inv ops g -> run_op g o = Some g' -> built_inv (ops ++ [o]) g'.
Proof.
  intros (Hlen & Hout & Hin) Hrun.
  destruct o as [x0 y0 st | src tgt d]; simpl in Hrun.
  - (* add_node *)
    injection Hrun as <-. unfold built_inv. simpl.
    rewrite length_app. simpl.
    split; [rewrite node_count_app; simpl; lia|].
    split.
    + intros s Hs. rewrite edges_from_app. simpl. rewrite app_nil_r.
      apply Hout. lia.
    + intros s Hs. rewrite edges_from_app. simpl. rewrite app_nil_r.
      destruct (decide (s < length (nodes g))) as [Hlt|Hge].
      * destruct (Hin s Hlt) as (nd & Hnd & Hch).
        exists nd. split; [by apply lookup_app_l_Some|done].
      * assert (s = length (nodes g)) as -> by lia.
        eexists. split; [by rewrite lookup_app_r, Nat.sub_diag by lia|].
        simpl. rewrite edge_chain_none, Hout by lia. done.
  - (* add_edge *)
    unfold add_edge in Hrun.
    destruct (nodes g !! src) as [nds|] eqn:Hsrc; simpl in Hrun; [|done].
    injection Hrun as <-. unfold built_inv. simpl.
    assert (src < length (nodes g)) as Hsl by (apply lookup_lt_is_Some; eauto).
    rewrite length_insert.
    split; [rewrite node_count_app; simpl; lia|].
    split.
    + intros s Hs. rewrite edges_from_app. simpl.
      case_decide; [lia|]. rewrite app_nil_r. by apply Hout.
    + intros s Hs. rewrite edges_from_app. simpl.
      rewrite length_app. simpl.
      destruct (decide (src = s)) as [<-|Hne].
      * destruct (Hin src Hsl) as (nd & Hnd & Hch).
        rewrite Hsrc in Hnd. injection Hnd as <-.
        eexists. split; [by rewrite list_lookup_insert_eq|]. simpl.
        rewrite Nat.add_1_r. simpl.
        rewrite lookup_app_r, Nat.sub_diag by lia. simpl.
        destruct (edge_chain (length (edges g)) (edges g)
                    (first_outgoing_edge nds)) as [l|] eqn:Hl; [|done].
        pose proof (edge_chain_extend _ 0 _
          [mkEdge d tgt (first_outgoing_edge nds)] _ _ Hl) as Hl'.
        rewrite Nat.add_0_r in Hl'. rewrite Hl'. simpl. simpl in Hch.
        injection Hch as Hch. rewrite Hch, rev_app_distr. done.
      * destruct (Hin s Hs) as (nd & Hnd & Hch).
        exists nd. split; [rewrite list_lookup_insert_ne; done|].
        rewrite app_nil_r.
        destruct (edge_chain (length (edges g)) (edges g)
                    (first_outgoing_edge nd)) as [l|] eqn:Hl; [|done].
        rewrite (edge_chain_extend _ 1 _ [_] _ _ Hl). done.
Qed.

Lemma built_inv_run ops g :
  run_ops ops Graph_new = Some g -> built_inv ops g.
Proof.
  revert g. induction ops as [|o ops IH] using rev_ind; intros g H.
  - injection H as <-. apply built_inv_nil.
  - unfold run_ops in *. rewrite for_each_app in H.
    destruct (for_each ops run_op Graph_new) as [g0|] eqn:H0; simpl in H; [|done].
    destruct (run_op g0 o) as [g1|] eqn:H1; simpl in H; [|done].
    injection H as <-. eapply built_inv_snoc; [apply IH; done|done].
Qed.

Lemma out_edges_built ops g s :
  run_ops ops Graph_new = Some g -> s < length (nodes g) ->
  exists l, out_edges g s = Some l /\ map edge_view l = rev (edges_from s ops).
Proof.
  intros Hrun Hs. destruct (built_inv_run _ _ Hrun) as (_ & _ & Hin).
  destruct (Hin s Hs) as (nd & Hnd & Hch).
  unfold out_edges. rewrite Hnd. simpl.
  destruct (edge_chain _ _ _) as [l|]; simpl in Hch; [|done].
  exists l. split; [done|]. congruence.
Qed.




(** Living successors, counted on the list the iterator yields. *)
Lemma count_living_spec (ns : list NodeData) (succ : list nat) n :
  Forall (fun t => t < length ns) succ ->
  n + length (filter (fun t => (state <$> ns !! t) = Some (Cell Live)) succ) < 2 ^ 16 ->
  count_living ns succ n =
  Some (n + length (filter (fun t => (state <$> ns !! t) = Some (Cell Live)) succ)).
Proof.
  revert n. induction succ as [|t succ IH]; intros n Hall Hb;
    cbn -[Nat.pow] in Hb |- *; [f_equal; lia|].
  apply Forall_cons in Hall as [Ht Hall].
  destruct (ns !! t) as [nd|] eqn:Hnd;
    [|apply lookup_ge_None in Hnd; lia]. cbn -[Nat.pow].
  rewrite ?filter_cons in Hb |- *. rewrite ?Hnd in Hb |- *. cbn -[Nat.pow] in Hb |- *.
  destruct (state nd) as [[]|m]; cbn -[Nat.pow] in Hb |- *;
    [rewrite decide_False in Hb |- * by congruence
    |rewrite decide_True in Hb |- * by done
    |rewrite decide_False in Hb |- * by congruence]; cbn -[Nat.pow] in Hb |- *;
    set (M := 2 ^ 16) in *.
  - rewrite (proj2 (Nat.leb_gt _ _)) by lia.
    rewrite IH; [f_equal; rewrite Nat.add_0_r; reflexivity|done|].
    eapply Nat.le_lt_trans; [|exact Hb].
    rewrite Nat.add_0_r. apply Nat.eq_le_incl. reflexivity.
  - rewrite (proj2 (Nat.leb_gt _ _)) by lia.
    rewrite IH; [f_equal; rewrite <- Nat.add_assoc; reflexivity|done|].
    eapply Nat.le_lt_trans; [|exact Hb].
    rewrite <- Nat.add_assoc. apply Nat.eq_le_incl. reflexivity.
  - rewrite IH; [done|done|exact Hb].
Qed.

(** ** C6: successors *)

(** C6. In a graph built by any sequence of [add_node]/[add_edge] calls, for
    every node [s], [successors g s] terminates and yields exactly the targets
    of the edges added with source [s], the most recently added first. *)
Theorem successors_reverse_insertion (ops : list graph_op) (g : Graph) (s : nat) :
  run_ops ops Graph_new = Some g ->
  s < length (nodes g) ->
  successors g s = Some (rev (map snd (edges_from s ops))).
Proof.
  intros Hrun Hs. destruct (out_edges_built ops g s Hrun Hs) as (l & Hl & Hv).
  unfold successors. rewrite Hl. simpl. f_equal.
  rewrite <- map_rev, <- Hv, map_map. done.
Qed.

Definition c6_ops : list graph_op :=
  [OpNode 0 0 (Cell Dead); OpNode 1 0 (Cell Live); OpNode 2 0 (Menu New);
   OpEdge 0 1 (Some RIGHT); OpEdge 1 0 (Some LEFT); OpEdge 0 2 None;
   OpEdge 0 0 (Some UP)].

Lemma successors_reverse_insertion_witness :
  (exists g, run_ops c6_ops Graph_new = Some g /\ 0 < length (nodes g) /\
             successors g 0 = Some [0; 2; 1]).
Proof.
  eexists. split; [reflexivity|]. split; [simpl; lia|].
  rewrite (successors_reverse_insertion c6_ops); [reflexivity|reflexivity|simpl; lia].
Defined.

(** ** C7: the cursor *)



(** ** C8: the neighbour count *)

(** A Live node with [m] self-loops: [add_node(0, 0, Cell(Live))] followed by
    [m] calls [add_edge(0, 0, None)]. *)
Definition star_ops (m : nat) : list graph_op :=
  OpNode 0 0 (Cell Live) :: repeat (OpEdge 0 0 None) m.

(** The [k]-th self-loop: its next edge is the one added before it. *)
Definition star_edge (k : nat) : EdgeData :=
  mkEdge None 0 (match k with O => None | S k' => Some k' end).

Definition star_graph (m : nat) : Graph :=
  mkGraph [mkNode (Cell Live) 0 0 (match m with O => None | S m' => Some m' end)]
          (map star_edge (seq 0 m)).

Lemma star_graph_built m : run_ops (star_ops m) Graph_new = Some (star_graph m).
Proof.
  induction m as [|m IH]; [reflexivity|].
  unfold star_ops, run_ops in *.
  replace (S m) with (m + 1) by lia. rewrite repeat_app, app_comm_cons, for_each_app.
  rewrite IH. simpl. unfold add_edge. simpl.
  rewrite length_map, length_seq. unfold star_graph. f_equal. f_equal.
  - replace (m + 1) with (S m) by lia. reflexivity.
  - replace (m + 1) with (S m) by lia. rewrite seq_S, map_app. reflexivity.
Qed.

Lemma star_edge_chain m k fuel :
  k < m -> S k <= fuel ->
  option_map (map target) (edge_chain fuel (map star_edge (seq 0 m)) (Some k))
    = Some (repeat 0 (S k)).
Proof.
  revert fuel. induction k as [|k IH]; intros fuel Hk Hf;
    (destruct fuel as [|fuel]; [lia|]); cbn [edge_chain];
    rewrite list_lookup_fmap, lookup_seq_lt by lia; simpl.
  - destruct fuel; reflexivity.
  - specialize (IH fuel ltac:(lia) ltac:(lia)).
    destruct (edge_chain fuel _ (Some k)) as [l|]; simpl in *; [|discriminate].
    injection IH as <-. reflexivity.
Qed.

Lemma star_successors m :
  0 < m -> successors (star_graph m) 0 = Some (repeat 0 m).
Proof.
  intros Hm. destruct m as [|m]; [lia|].
  unfold successors, out_edges. simpl nodes. cbn [lookup list_lookup mbind option_bind].
  cbn [first_outgoing_edge edges star_graph].
  pose proof (star_edge_chain (S m) m (length (map star_edge (seq 0 (S m))))) as H.
  rewrite length_map, length_seq in H |- *.
  specialize (H ltac:(lia) ltac:(lia)).
  destruct (edge_chain _ _ _) as [l|]; simpl in *; [|discriminate].
  injection H as <-. reflexivity.
Qed.

(** Counting along self-loops to a Live node: the [u16] counter overflows
    once it reaches 2^16. *)
Lemma count_living_live_repeat ns nd m n :
  ns !! 0 = Some nd -> state nd = Cell Live ->
  n < 2 ^ 16 -> 2 ^ 16 <= n + m ->
  count_living ns (repeat 0 m) n = None.
Proof.
  intros Hnd Hs. revert n. induction m as [|m IH]; intros n Hn Hm;
    cbn -[Nat.pow]; set (M := 2 ^ 16) in *; [lia|].
  rewrite Hnd. cbn -[Nat.pow]. rewrite Hs. cbn -[Nat.pow]. fold M.
  destruct (M <=? n + 1) eqn:Hle; [reflexivity|].
  apply Nat.leb_gt in Hle. apply IH; lia.
Qed.


(** C8, amended. For every graph and node [n] whose successor walk ends,
    with the successors nodes of the graph (the graph invariant), and fewer
    than 2^16 successors of payload [Cell Live] (the range of the [u16]
    counter), [living_neighbors_count_of g n] is the number of successors
    whose payload is [Cell Live]; [Cell Dead] and [Menu] successors add
    nothing. *)
Theorem living_neighbors_count_exact (g : Graph) (n : nat) (succ : list nat) :
  successors g n = Some succ ->
  Forall (fun t => t < length (nodes g)) succ ->
  length (filter (fun t => (state <$> nodes g !! t) = Some (Cell Live)) succ) < 2 ^ 16 ->
  living_neighbors_count_of g n =
    Some (length (filter (fun t => (state <$> nodes g !! t) = Some (Cell Live)) succ)).
Proof.
  intros Hs Hall Hb. unfold living_neighbors_count_of. rewrite Hs. simpl.
  by rewrite count_living_spec.
Qed.

Lemma living_neighbors_count_exact_witness :
  (exists g, run_ops c6_ops Graph_new = Some g /\
     successors g 0 = Some [0; 2; 1] /\
     Forall (fun t => t < length (nodes g)) [0; 2; 1] /\
     living_neighbors_count_of g 0 = Some 1).
Proof.
  eexists. split; [reflexivity|]. split; [reflexivity|].
  split; [repeat constructor; simpl; lia|].
  rewrite (living_neighbors_count_exact _ 0 [0; 2; 1]);
    [reflexivity|reflexivity|repeat constructor; simpl; lia|].
  { apply Nat.ltb_lt. vm_compute. reflexivity. }
Defined.

(** Claim C8, counterexample: the graph [star_graph (2^16)], built by one
    [add_node] of a Live cell and 2^16 calls [add_edge(0, 0, None)], gives
    node 0 exactly 2^16 successors, all Live. The [u16] counter of
    [living_neighbors_count_of] overflows on the last one: a panic here (a
    build without overflow checks wraps it to 0 instead), never the count
    2^16. *)
Lemma living_neighbors_count_u16_overflow :
  run_ops (star_ops (2 ^ 16)) Graph_new = Some (star_graph (2 ^ 16)) /\
  successors (star_graph (2 ^ 16)) 0 = Some (repeat 0 (2 ^ 16)) /\
  state <$> nodes (star_graph (2 ^ 16)) !! 0 = Some (Cell Live) /\
  living_neighbors_count_of (star_graph (2 ^ 16)) 0 = None.
Proof.
  assert (Hpos : 0 < 2 ^ 16) by (apply Nat.ltb_lt; vm_compute; reflexivity).
  split; [apply star_graph_built|].
  split; [apply star_successors; exact Hpos|].
  split; [reflexivity|].
  unfold living_neighbors_count_of. rewrite star_successors by exact Hpos.
  cbn [mbind option_bind].
  apply (count_living_live_repeat _ (mkNode (Cell Live) 0 0 (Some (pred (2 ^ 16))))).
  - destruct (2 ^ 16) as [|p] eqn:Hp; [lia|]. reflexivity.
  - reflexivity.
  - exact Hpos.
  - lia.
Qed.

(** ** The grid builder as a sequence of graph operations *)

Lemma for_each_map {A B C} (h : C -> B) (l : list C) (body : A -> B -> option A) a :
  for_each (map h l) body a = for_each l (fun a c => body a (h c)) a.
Proof.
  revert a. induction l as [|c l IH]; intros a; simpl; [done|].
  destruct (body a (h c)); simpl; [apply IH|done].
Qed.

Lemma for_each_flat_map {A B C} (F : C -> list B) (l : list C)
    (body : A -> B -> option A) a :
  for_each (flat_map F l) body a = for_each l (fun a c => for_each (F c) body a) a.
Proof.
  revert a. induction l as [|c l IH]; intros a; simpl; [done|].
  rewrite for_each_app. destruct (for_each (F c) body a); simpl; [apply IH|done].
Qed.

Lemma for_each_ext {A B} (l : list B) (f1 f2 : A -> B -> option A) a :
  (forall a b, f1 a b = f2 a b) -> for_each l f1 a = for_each l f2 a.
Proof.
  intros Hf. revert a. induction l as [|b l IH]; intros a; simpl; [done|].
  rewrite Hf. destruct (f2 a b); simpl; [apply IH|done].
Qed.

Lemma cell_edge_ops_run width height g i j :
  for_each (cell_edge_ops width height i j) run_op g = add_cell_edges width height g i j.
Proof.
  unfold cell_edge_ops, add_cell_edges. simpl.
  repeat (match goal with
          | |- context [add_edge ?g ?s ?t ?d ≫= _] =>
              destruct (add_edge g s t d); simpl; [|done]
          end).
  done.
Qed.

Lemma new_world_run_ops width height :
  width * height < 2 ^ 16 ->
  new_world width height = run_ops (world_ops width height) Graph_new.
Proof.
  intros Hsz. unfold new_world, run_ops, world_ops.
  rewrite (proj2 (Nat.leb_gt _ _) Hsz).
  rewrite for_each_app, for_each_map.
  destruct (for_each (seq 0 (width * height)) _ Graph_new) as [g|]; simpl; [|done].
  rewrite for_each_flat_map. apply for_each_ext. intros g' i.
  rewrite for_each_flat_map. apply for_each_ext. intros g'' j.
  symmetry. apply cell_edge_ops_run.
Qed.

(** ** Each neighbour map of [new_world] is a permutation of the grid *)

(** [f] permutes [0..size). *)
Definition perm_on (size : nat) (f : nat -> nat) : Prop :=
  (forall i, i < size -> f i < size) /\
  (forall i1 i2, i1 < size -> i2 < size -> f i1 = f i2 -> i1 = i2) /\
  (forall k, k < size -> exists i, i < size /\ f i = k).

Lemma perm_on_id size : perm_on size (fun i => i).
Proof. split; [done|]. split; [done|]. intros k Hk. eauto. Qed.

Lemma succ_mod_small size i :
  i < size -> (i + 1) mod size = if decide (i + 1 = size) then 0 else i + 1.
Proof.
  intros Hi. case_decide as Heq.
  - rewrite Heq. apply Nat.Div0.mod_same.
  - apply Nat.mod_small. lia.
Qed.

Lemma perm_on_succ size : perm_on size (fun i => (i + 1) mod size).
Proof.
  split; [|split].
  - intros i Hi. apply Nat.mod_upper_bound. lia.
  - intros i1 i2 H1 H2. rewrite !succ_mod_small by done.
    repeat case_decide; lia.
  - intros k Hk. destruct k as [|k].
    + exists (size - 1). split; [lia|].
      rewrite succ_mod_small by lia. case_decide; lia.
    + exists k. split; [lia|]. rewrite succ_mod_small by lia. case_decide; lia.
Qed.

Lemma pred_rem_euclid_small size i :
  i < size ->
  Z.to_nat (Z.modulo (Z.of_nat i - 1) (Z.of_nat size)) =
  if decide (i = 0) then size - 1 else i - 1.
Proof.
  intros Hi. case_decide as Heq.
  - subst i.
    assert (Z.modulo (Z.of_nat 0 - 1) (Z.of_nat size) = Z.of_nat size - 1)%Z as ->.
    { symmetry. apply (Z.mod_unique_pos _ _ (-1)); lia. }
    lia.
  - rewrite Z.mod_small by lia. lia.
Qed.

Lemma perm_on_pred size :
  perm_on size (fun i => Z.to_nat (Z.modulo (Z.of_nat i - 1) (Z.of_nat size))).
Proof.
  split; [|split].
  - intros i Hi. rewrite pred_rem_euclid_small by done. case_decide; lia.
  - intros i1 i2 H1 H2. rewrite !pred_rem_euclid_small by done.
    repeat case_decide; lia.
  - intros k Hk. destruct (decide (k = size - 1)) as [->|Hne].
    + exists 0. split; [lia|]. rewrite pred_rem_euclid_small by lia.
      case_decide; lia.
    + exists (k + 1). split; [lia|]. rewrite pred_rem_euclid_small by lia.
      case_decide; lia.
Qed.

Lemma grid_index_inj width i1 j1 i2 j2 :
  i1 < width -> i2 < width -> j1 * width + i1 = j2 * width + i2 ->
  i1 = i2 /\ j1 = j2.
Proof.
  intros H1 H2 Heq.
  destruct (Nat.lt_trichotomy j1 j2) as [Hlt|[->|Hgt]].
  - exfalso. assert (j1 * width + width <= j2 * width) by nia. lia.
  - lia.
  - exfalso. assert (j2 * width + width <= j1 * width) by nia. lia.
Qed.

(** ** Counting the out-edges of a node of [new_world] *)

Definition ind (P : Prop) `{Decision P} : nat := if decide P then 1 else 0.

Ltac count_cell :=
  unfold cell_edge_ops, ind; cbn [edges_from];
  repeat case_decide; rewrite ?filter_cons, ?filter_nil; simpl;
  repeat first [rewrite decide_True by done | rewrite decide_False by discriminate];
  simpl; try lia; congruence.

Section CellCounts.
Variables (width height n i j : nat).
Let here := n_here width height i j.
Let cell := edges_from n (cell_edge_ops width height i j).
Let cell_dir_count (d : option Button) :=
  length (filter (fun e : option Button * nat => e.1 = d) cell).

Lemma cell_length :
  length cell =
    ind (here = n) + ind (n_right width height i j = n) + ind (here = n)
    + ind (n_down width height i j = n) + ind (here = n)
    + ind (n_down_right width height i j = n) + ind (here = n)
    + ind (n_down_left width height i j = n).
Proof. unfold cell, here. count_cell. Qed.

Lemma cell_right : cell_dir_count (Some RIGHT) = ind (here = n).
Proof. unfold cell_dir_count, cell, here. count_cell. Qed.

Lemma cell_left : cell_dir_count (Some LEFT) = ind (n_right width height i j = n).
Proof. unfold cell_dir_count, cell, here. count_cell. Qed.

Lemma cell_down : cell_dir_count (Some DOWN) = ind (here = n).
Proof. unfold cell_dir_count, cell, here. count_cell. Qed.

Lemma cell_up : cell_dir_count (Some UP) = ind (n_down width height i j = n).
Proof. unfold cell_dir_count, cell, here. count_cell. Qed.

Lemma cell_untagged :
  cell_dir_count None =
    ind (here = n) + ind (n_down_right width height i j = n) + ind (here = n)
    + ind (n_down_left width height i j = n).
Proof. unfold cell_dir_count, cell, here. count_cell. Qed.
End CellCounts.

Definition grid_pairs (width height : nat) : list (nat * nat) :=
  flat_map (fun i => map (fun j => (i, j)) (seq 0 height)) (seq 0 width).

Lemma grid_pairs_elem width height i j :
  (i, j) ∈ grid_pairs width height <-> i < width /\ j < height.
Proof.
  unfold grid_pairs. rewrite list_elem_of_In, in_flat_map. split.
  - intros (i' & Hi' & Hin). apply in_map_iff in Hin as (j' & Heq & Hj).
    injection Heq as <- <-. rewrite in_seq in Hi', Hj. lia.
  - intros [Hi Hj]. exists i. split; [apply in_seq; lia|].
    apply in_map_iff. exists j. split; [done|]. apply in_seq. lia.
Qed.

Lemma grid_pairs_NoDup width height : NoDup (grid_pairs width height).
Proof.
  unfold grid_pairs.
  assert (forall (i : nat) (l : list nat), NoDup l -> NoDup (map (fun j => (i, j)) l))
    as Hrow.
  { intros i l Hl. induction Hl as [|j l Hj Hl IH]; simpl; constructor; [|done].
    rewrite list_elem_of_In, in_map_iff. intros (j' & Heq & Hin).
    injection Heq as ->. apply Hj. by apply list_elem_of_In. }
  assert (forall l : list nat, NoDup l ->
    NoDup (flat_map (fun i => map (fun j => (i, j)) (seq 0 height)) l)) as Hall.
  { intros l Hl. induction Hl as [|i l Hi Hl IH]; simpl; [constructor|].
    apply NoDup_app. split; [apply Hrow, NoDup_seq|]. split; [|done].
    intros [a b] Ha Hb. rewrite list_elem_of_In, in_map_iff in Ha.
    destruct Ha as (j & Heq & _). injection Heq as <- <-.
    rewrite list_elem_of_In, in_flat_map in Hb. destruct Hb as (i' & Hi' & Hin).
    rewrite in_map_iff in Hin. destruct Hin as (j' & Heq & _).
    injection Heq as -> _. apply Hi. by apply list_elem_of_In. }
  apply Hall, NoDup_seq.
Qed.

Lemma sum_ind_zero {X} (P : X -> Prop) `{forall x, Decision (P x)} (l : list X) :
  (forall b, b ∈ l -> ~ P b) -> sum_list_with (fun x => ind (P x)) l = 0.
Proof.
  induction l as [|a l IH]; intros Hn; simpl; [done|].
  unfold ind at 1. rewrite decide_False by (apply Hn; constructor).
  apply IH. intros b Hb. apply Hn. by constructor.
Qed.

Lemma sum_ind_unique {X} (P : X -> Prop) `{forall x, Decision (P x)} (l : list X) :
  NoDup l ->
  (forall a b, a ∈ l -> b ∈ l -> P a -> P b -> a = b) ->
  (exists a, a ∈ l /\ P a) ->
  sum_list_with (fun x => ind (P x)) l = 1.
Proof.
  induction l as [|a l IH]; intros Hnd Huniq (a0 & Ha0 & HP0); simpl.
  - by apply not_elem_of_nil in Ha0.
  - apply NoDup_cons in Hnd as [Hnotin Hnd]. unfold ind at 1. case_decide as Ha.
    + rewrite sum_ind_zero; [done|]. intros b Hb HPb.
      assert (b = a) as -> by (apply Huniq; [by constructor|constructor|done|done]).
      done.
    + simpl. apply IH; [done| |].
      * intros x y Hx Hy. apply Huniq; by constructor.
      * exists a0. split; [|done]. apply elem_of_cons in Ha0 as [->|]; done.
Qed.

(** Every neighbour index of [new_world] reaches every node from exactly one
    cell [(i, j)]. *)
Lemma grid_sum_one width height (F : nat -> nat -> nat) (s1 s2 : nat -> nat) n :
  perm_on width s1 -> perm_on height s2 ->
  (forall i j, F i j = s2 j * width + s1 i) ->
  n < width * height ->
  sum_list_with (fun p => ind (F p.1 p.2 = n)) (grid_pairs width height) = 1.
Proof.
  intros (Hr1 & Hi1 & Hs1) (Hr2 & Hi2 & Hs2) HF Hn.
  assert (width <> 0) as Hw by (intros ->; lia).
  apply (sum_ind_unique (fun p => F p.1 p.2 = n)).
  - apply grid_pairs_NoDup.
  - intros [i1 j1] [i2 j2] Hp1 Hp2 HP1 HP2. simpl in HP1, HP2.
    apply grid_pairs_elem in Hp1 as [], Hp2 as [].
    rewrite !HF in HP1, HP2. rewrite <- HP2 in HP1.
    apply grid_index_inj in HP1 as [Ha Hb]; [|apply Hr1; done|apply Hr1; done].
    f_equal; [apply Hi1|apply Hi2]; done.
  - assert (n / width < height) as Hq by (apply Nat.Div0.div_lt_upper_bound; lia).
    destruct (Hs1 (n mod width)) as (i & Hi & Hsi); [by apply Nat.mod_upper_bound|].
    destruct (Hs2 (n / width)) as (j & Hj & Hsj); [done|].
    exists (i, j). split; [by apply grid_pairs_elem|]. simpl.
    rewrite HF, Hsi, Hsj. rewrite (Nat.div_mod_eq n width) at 3. lia.
Qed.

Lemma sum_list_with_ext {X} (f g : X -> nat) (l : list X) :
  (forall x, f x = g x) -> sum_list_with f l = sum_list_with g l.
Proof. intros Hfg. induction l as [|a l IH]; simpl; [done|]. by rewrite Hfg, IH. Qed.

Lemma sum_list_with_add {X} (f g : X -> nat) (l : list X) :
  sum_list_with (fun x => f x + g x) l = sum_list_with f l + sum_list_with g l.
Proof. induction l as [|a l IH]; simpl; lia. Qed.

Lemma length_filter_flat_map {X Y} (P : Y -> Prop) `{forall y, Decision (P y)}
    (G : X -> list Y) (l : list X) :
  length (filter P (flat_map G l)) = sum_list_with (fun x => length (filter P (G x))) l.
Proof.
  induction l as [|a l IH]; simpl; [done|].
  by rewrite filter_app, length_app, IH.
Qed.

Lemma length_flat_map {X Y} (G : X -> list Y) (l : list X) :
  length (flat_map G l) = sum_list_with (fun x => length (G x)) l.
Proof. induction l as [|a l IH]; simpl; [done|]. by rewrite length_app, IH. Qed.

Lemma length_filter_rev {X} (P : X -> Prop) `{forall x, Decision (P x)} (l : list X) :
  length (filter P (rev l)) = length (filter P l).
Proof.
  induction l as [|a l IH]; simpl; [done|].
  rewrite filter_app, length_app, IH, !filter_cons, filter_nil.
  case_decide; simpl; lia.
Qed.

Lemma edges_from_world width height n :
  edges_from n (world_ops width height) =
  flat_map (fun p => edges_from n (cell_edge_ops width height p.1 p.2))
           (grid_pairs width height).
Proof.
  unfold world_ops, grid_pairs. rewrite edges_from_app.
  assert (forall l : list nat,
    edges_from n (map (fun i => OpNode (i mod width) (i / width) (Cell Dead)) l) = [])
    as -> by (intros l; induction l; simpl; done).
  cbn [app].
  assert (forall (i : nat) (l' : list nat),
    edges_from n (flat_map (fun j => cell_edge_ops width height i j) l') =
    flat_map (fun p => edges_from n (cell_edge_ops width height p.1 p.2))
             (map (fun j => (i, j)) l')) as Hrow.
  { intros i l'. induction l' as [|j l' IH']; cbn [flat_map map]; [done|].
    rewrite edges_from_app, IH'. done. }
  induction (seq 0 width) as [|i l IH]; cbn [flat_map]; [done|].
  rewrite edges_from_app, flat_map_app, IH, Hrow. done.
Qed.

(** Edge operations whose sources are nodes all succeed. *)
Lemma run_edges_ok (ops : list graph_op) (g : Graph) :
  Forall (fun o => exists s t d, o = OpEdge s t d /\ s < length (nodes g)) ops ->
  exists g', for_each ops run_op g = Some g' /\ length (nodes g') = length (nodes g).
Proof.
  revert g. induction ops as [|o ops IH]; intros g Hall; simpl; [eauto|].
  apply Forall_cons in Hall as [(s & t & d & -> & Hs) Hall]. simpl.
  unfold add_edge. destruct (lookup_lt_is_Some_2 (nodes g) s Hs) as [nd ->]. simpl.
  match goal with |- context [for_each ops run_op ?g1] =>
    destruct (IH g1) as (g' & Hg' & Hlen) end.
  { simpl. rewrite length_insert. done. }
  exists g'. split; [done|]. rewrite Hlen. simpl. apply length_insert.
Qed.

Lemma run_nodes_length (l : list nat) (f : nat -> graph_op) (g : Graph) :
  (forall i, exists x y st, f i = OpNode x y st) ->
  exists g', for_each (map f l) run_op g = Some g' /\
             length (nodes g') = length (nodes g) + length l.
Proof.
  intros Hf. revert g. induction l as [|i l IH]; intros g; simpl; [exists g; split; [done|lia]|].
  destruct (Hf i) as (x0 & y0 & st & ->). simpl.
  destruct (IH (fst (add_node g x0 y0 st))) as (g' & Hg' & Hlen).
  exists g'. split; [done|]. rewrite Hlen. simpl. rewrite length_app. simpl. lia.
Qed.

(** The neighbour indices as [s2 j * width + s1 i]. *)
Lemma n_right_form width height i j :
  n_right width height i j = j * width + (i + 1) mod width.
Proof. unfold n_right. apply Nat.add_comm. Qed.

Lemma n_down_form width height i j :
  n_down width height i j = (j + 1) mod height * width + i.
Proof. done. Qed.

Lemma n_down_right_form width height i j :
  n_down_right width height i j = (j + 1) mod height * width + (i + 1) mod width.
Proof. done. Qed.

Lemma n_down_left_form width height i j :
  n_down_left width height i j =
  (j + 1) mod height * width + Z.to_nat (Z.modulo (Z.of_nat i - 1) (Z.of_nat width)).
Proof. done. Qed.

Lemma world_edge_ops_ok width height (g : Graph) :
  1 <= width -> 1 <= height -> length (nodes g) = width * height ->
  Forall (fun o => exists s t d, o = OpEdge s t d /\ s < length (nodes g))
    (flat_map (fun i => flat_map (fun j => cell_edge_ops width height i j) (seq 0 height))
              (seq 0 width)).
Proof.
  intros Hw Hh Hlen. apply Forall_forall. intros o Ho.
  apply list_elem_of_In in Ho. apply in_flat_map in Ho as (i & Hi & Ho). apply in_flat_map in Ho as (j & Hj & Ho).
  apply in_seq in Hi, Hj. rewrite Hlen.
  destruct (perm_on_succ width) as [Hsw _]. destruct (perm_on_succ height) as [Hsh _].
  destruct (perm_on_pred width) as [Hpw _].
  specialize (Hsw i ltac:(lia)). specialize (Hsh j ltac:(lia)).
  specialize (Hpw i ltac:(lia)).
  unfold cell_edge_ops in Ho.
  rewrite n_right_form, n_down_form, n_down_right_form, n_down_left_form in Ho.
  unfold n_here in Ho.
  repeat destruct Ho as [<-|Ho]; try done; do 3 eexists; split; try done; nia.
Qed.

Section GridSums.
Variables (width height n : nat).
Hypothesis Hn : n < width * height.
Let pairs := grid_pairs width height.

Lemma sum_here :
  sum_list_with (fun p => ind (n_here width height p.1 p.2 = n)) pairs = 1.
Proof.
  apply (grid_sum_one _ _ _ (fun i => i) (fun j => j));
    [apply perm_on_id|apply perm_on_id|done|done].
Qed.

Lemma sum_right :
  sum_list_with (fun p => ind (n_right width height p.1 p.2 = n)) pairs = 1.
Proof.
  apply (grid_sum_one _ _ _ (fun i => (i + 1) mod width) (fun j => j));
    [apply perm_on_succ|apply perm_on_id|apply n_right_form|done].
Qed.

Lemma sum_down :
  sum_list_with (fun p => ind (n_down width height p.1 p.2 = n)) pairs = 1.
Proof.
  apply (grid_sum_one _ _ _ (fun i => i) (fun j => (j + 1) mod height));
    [apply perm_on_id|apply perm_on_succ|apply n_down_form|done].
Qed.

Lemma sum_down_right :
  sum_list_with (fun p => ind (n_down_right width height p.1 p.2 = n)) pairs = 1.
Proof.
  apply (grid_sum_one _ _ _ (fun i => (i + 1) mod width) (fun j => (j + 1) mod height));
    [apply perm_on_succ|apply perm_on_succ|apply n_down_right_form|done].
Qed.

Lemma sum_down_left :
  sum_list_with (fun p => ind (n_down_left width height p.1 p.2 = n)) pairs = 1.
Proof.
  apply (grid_sum_one _ _ _
           (fun i => Z.to_nat (Z.modulo (Z.of_nat i - 1) (Z.of_nat width)))
           (fun j => (j + 1) mod height));
    [apply perm_on_pred|apply perm_on_succ|apply n_down_left_form|done].
Qed.
End GridSums.

(** Out-edges of a node carrying the tag [d]. *)
Definition dir_count (d : option Button) (l : list EdgeData) : nat :=
  length (filter (fun e => direction e = d) l).

Lemma dir_count_view d l :
  dir_count d l = length (filter (fun p : option Button * nat => p.1 = d) (map edge_view l)).
Proof.
  unfold dir_count. induction l as [|e l IH]; simpl; [done|].
  rewrite !filter_cons. simpl. case_decide; simpl; lia.
Qed.

Lemma new_world_built width height :
  1 <= width -> 1 <= height -> width * height < 2 ^ 16 ->
  exists g, new_world width height = Some g /\
    run_ops (world_ops width height) Graph_new = Some g /\
    length (nodes g) = width * height.
Proof.
  intros Hw Hh Hsz. rewrite new_world_run_ops by done.
  unfold run_ops, world_ops. rewrite for_each_app.
  destruct (run_nodes_length (seq 0 (width * height))
              (fun i => OpNode (i mod width) (i / width) (Cell Dead)) Graph_new)
    as (g1 & Hg1 & Hl1); [eauto|].
  rewrite length_seq in Hl1. simpl in Hl1. rewrite Hg1. simpl.
  destruct (run_edges_ok _ g1 (world_edge_ops_ok width height g1 Hw Hh Hl1))
    as (g & Hg & Hl).
  rewrite Hg. exists g. split; [done|]. split; [done|]. lia.
Qed.

(** ** C5: the grid has eight out-edges per node *)

(** C5 (amended). For [3 <= width], [3 <= height] and a node count
    [width * height] that fits the [u16] arithmetic of [new_world]
    ([width * height < 2^16]), [new_world width height] builds its graph and
    every node has exactly 8 out-edges: one tagged with each of [RIGHT],
    [LEFT], [DOWN], [UP], and four untagged. *)
Theorem new_world_eight_edges (width height : nat) :
  3 <= width -> 3 <= height -> width * height < 2 ^ 16 ->
  exists g, new_world width height = Some g /\
    length (nodes g) = width * height /\
    forall n, n < width * height ->
      exists l, out_edges g n = Some l /\
        length l = 8 /\
        dir_count (Some RIGHT) l = 1 /\ dir_count (Some LEFT) l = 1 /\
        dir_count (Some DOWN) l = 1 /\ dir_count (Some UP) l = 1 /\
        dir_count None l = 4.
Proof.
  intros Hw Hh Hsz.
  destruct (new_world_built width height) as (g & Hg & Hrun & Hlen); [lia|lia|done|].
  exists g. split; [done|]. split; [done|].
  intros n Hn.
  destruct (out_edges_built _ g n Hrun) as (l & Hl & Hv); [lia|].
  exists l. split; [done|].
  rewrite !dir_count_view, Hv, !length_filter_rev, edges_from_world,
    !length_filter_flat_map.
  rewrite (sum_list_with_ext _ _ _ (fun p => cell_right width height n p.1 p.2)),
    (sum_list_with_ext _ _ _ (fun p => cell_left width height n p.1 p.2)),
    (sum_list_with_ext _ _ _ (fun p => cell_down width height n p.1 p.2)),
    (sum_list_with_ext _ _ _ (fun p => cell_up width height n p.1 p.2)),
    (sum_list_with_ext _ _ _ (fun p => cell_untagged width height n p.1 p.2)).
  rewrite !sum_list_with_add.
  rewrite sum_here, sum_right, sum_down, sum_down_right, sum_down_left by done.
  split; [|done].
  rewrite <- (length_map edge_view), Hv, length_rev, edges_from_world, length_flat_map.
  rewrite (sum_list_with_ext _ _ _ (fun p => cell_length width height n p.1 p.2)).
  rewrite !sum_list_with_add.
  rewrite sum_here, sum_right, sum_down, sum_down_right, sum_down_left by done.
  done.
Qed.

Lemma new_world_eight_edges_witness :
  (3 <= 4 /\ 3 <= 3 /\ 4 * 3 < 2 ^ 16) /\
  exists g, new_world 4 3 = Some g /\ length (nodes g) = 12.
Proof.
  assert (3 <= 4 /\ 3 <= 3 /\ 4 * 3 < 2 ^ 16) as (H1 & H2 & H3)
    by (split; [lia|split; [lia|apply Nat.ltb_lt; vm_compute; reflexivity]]).
  split; [done|].
  destruct (new_world_eight_edges 4 3 H1 H2 H3) as (g & Hg & Hlen & _).
  exists g. split; [done|]. rewrite Hlen. reflexivity.
Defined.

(** C5, counterexample: [new_world] takes [u16] sizes and computes
    [width*height] in [u16]; for [256 x 256] the product overflows and the
    call panics (with or without overflow checks: wrapped to [0] nodes, the
    first [add_edge] indexes an empty vector), so no graph is built. *)
Lemma new_world_eight_edges_overflow :
  3 <= 256 /\ new_world 256 256 = None.
Proof. split; [lia|]. vm_compute. reflexivity. Qed.

(** ** The generation update *)

(** The number of [Cell Live] successors of [i] in [g]. *)
Definition live_count (g : Graph) (i : nat) : nat :=
  match successors g i with
  | Some l => length (filter (fun t => (state <$> nodes g !! t) = Some (Cell Live)) l)
  | None => 0
  end.

(** A grid as [new_world] builds it: every node has at most 8 successors, all
    of them nodes. *)
Definition grid_shaped (g : Graph) : Prop :=
  forall i, i < length (nodes g) ->
    exists l, successors g i = Some l /\ length l <= 8 /\
              Forall (fun t => t < length (nodes g)) l.

Lemma small_lt_u16 k : k <= 8 -> k < 2 ^ 16.
Proof.
  intros Hk. eapply Nat.le_lt_trans; [exact Hk|].
  apply Nat.ltb_lt. vm_compute. reflexivity.
Qed.

Lemma living_count_live_count g i :
  grid_shaped g -> i < length (nodes g) ->
  living_neighbors_count_of g i = Some (live_count g i) /\ live_count g i <= 8.
Proof.
  intros Hg Hi. destruct (Hg i Hi) as (l & Hl & H8 & Hall).
  unfold living_neighbors_count_of, live_count. rewrite Hl. simpl.
  pose proof (length_filter (fun t => (state <$> nodes g !! t) = Some (Cell Live)) l).
  rewrite count_living_spec by (done || apply small_lt_u16; lia). split; [done|].
  lia.
Qed.

Lemma rule_at_wf rules r c :
  rules_wf rules -> r < 2 -> c < 9 -> exists v, rule_at rules r c = Some v.
Proof.
  intros [Hlen Hrows] Hr Hc. unfold rule_at.
  destruct (lookup_lt_is_Some_2 rules r) as [row Hrow]; [lia|].
  rewrite Hrow. simpl.
  pose proof (Forall_lookup_1 _ _ _ _ Hrows Hrow) as Hrl. simpl in Hrl.
  apply lookup_lt_is_Some_2. lia.
Qed.

Lemma step_neighbors_spec g :
  grid_shaped g -> length (nodes g) <= HEIGHT * WIDTH ->
  exists nb, step_neighbors g = Some nb /\
    forall i, i < length (nodes g) -> nb !! i = Some (live_count g i).
Proof.
  intros Hg Hsz. unfold step_neighbors.
  assert (forall k, k <= length (nodes g) ->
    exists nb, for_each (seq 0 k)
      (fun nb i => c ← living_neighbors_count_of g i;
                   if decide (i < length nb) then Some (<[i := c]> nb) else None)
      (repeat 0 (HEIGHT * WIDTH)) = Some nb /\
    length nb = HEIGHT * WIDTH /\
    forall i, i < k -> nb !! i = Some (live_count g i)) as Hk.
  { induction k as [|k IH]; intros Hkl.
    - eexists. split; [done|]. split; [apply repeat_length|]. intros; lia.
    - destruct IH as (nb & Hnb & Hlen & Hv); [lia|].
      rewrite seq_S, for_each_app, Hnb. simpl.
      destruct (living_count_live_count g k Hg) as [-> _]; [lia|]. simpl.
      rewrite decide_True by lia.
      eexists. split; [done|]. split; [by rewrite length_insert|].
      intros i Hi. destruct (decide (i = k)) as [->|Hne].
      + apply list_lookup_insert_eq. lia.
      + rewrite list_lookup_insert_ne by done. apply Hv. lia. }
  destruct (Hk (length (nodes g))) as (nb & Hnb & _ & Hv); [done|].
  eauto.
Qed.

(** Node [i] after the update, from its state before the update. *)
Definition stepped_node (g : Graph) (rules : Rules) (i : nat) (nd : NodeData) : NodeData :=
  match state nd with
  | Cell s =>
      mkNode (Cell (CellState_from_u16
                      (default 0%Z (rule_at rules (CellState_as_num s) (live_count g i)))))
             (x nd) (y nd) (first_outgoing_edge nd)
  | _ => nd
  end.

Lemma set_state_lookup g i j st :
  nodes (set_state g i st) !! j =
  if decide (i = j)
  then (fun nd => mkNode st (x nd) (y nd) (first_outgoing_edge nd)) <$> nodes g !! j
  else nodes g !! j.
Proof.
  unfold set_state. simpl. rewrite list_lookup_alter.
  case_decide as Hij; [by subst|done].
Qed.

Lemma step_update_spec g rules nb :
  rules_wf rules -> grid_shaped g ->
  (forall i, i < length (nodes g) -> nb !! i = Some (live_count g i)) ->
  exists g', step_update g rules nb = Some g' /\
    edges g' = edges g /\
    forall i, nodes g' !! i = stepped_node g rules i <$> nodes g !! i.
Proof.
  intros Hwf Hg Hnb. unfold step_update.
  assert (forall k, k <= length (nodes g) ->
    exists gk, for_each (seq 0 k)
      (fun g0 i =>
         nd ← nodes g0 !! i;
         match state nd with
         | Cell s =>
             nb_i ← nb !! i;
             r ← rule_at rules (CellState_as_num s) nb_i;
             Some (set_state g0 i (Cell (CellState_from_u16 r)))
         | _ => Some g0
         end) g = Some gk /\
    edges gk = edges g /\
    (forall i, k <= i -> nodes gk !! i = nodes g !! i) /\
    (forall i, i < k -> nodes gk !! i = stepped_node g rules i <$> nodes g !! i))
    as Hk.
  { induction k as [|k IH]; intros Hkl.
    - exists g. split; [done|]. split; [done|]. split; [done|]. intros; lia.
    - destruct IH as (gk & Hgk & Hedges & Hrest & Hdone); [lia|].
      rewrite seq_S, for_each_app, Hgk. simpl.
      rewrite Hrest by lia.
      destruct (lookup_lt_is_Some_2 (nodes g) k) as [nd Hnd]; [lia|].
      rewrite Hnd. simpl.
      destruct (state nd) as [s|m] eqn:Hs.
      + rewrite Hnb by lia. simpl.
        destruct (living_count_live_count g k Hg) as [_ H8]; [lia|].
        destruct (rule_at_wf rules (CellState_as_num s) (live_count g k) Hwf)
          as [v Hv]; [destruct s; simpl; lia|lia|].
        rewrite Hv. simpl.
        eexists. split; [done|]. split; [done|]. split.
        * intros i Hi. rewrite set_state_lookup. rewrite decide_False by lia.
          apply Hrest. lia.
        * intros i Hi. rewrite set_state_lookup. case_decide as Hki.
          -- subst i. rewrite Hrest by lia. rewrite Hnd. simpl.
             unfold stepped_node. rewrite Hs, Hv. done.
          -- apply Hdone. lia.
      + eexists. split; [done|]. split; [done|]. split.
        * intros i Hi. apply Hrest. lia.
        * intros i Hi. destruct (decide (i = k)) as [->|Hne].
          -- rewrite Hrest by lia. rewrite Hnd. simpl. unfold stepped_node.
             rewrite Hs. done.
          -- apply Hdone. lia. }
  destruct (Hk (length (nodes g))) as (g' & Hg' & Hedges & Hrest & Hdone); [done|].
  exists g'. split; [done|]. split; [done|].
  intros i. destruct (decide (i < length (nodes g))) as [Hi|Hi]; [by apply Hdone|].
  rewrite Hrest by lia. rewrite (proj2 (lookup_ge_None _ _)) by lia. done.
Qed.

(** A decision procedure for [grid_shaped]. *)
Definition grid_shapedb (g : Graph) : bool :=
  forallb (fun i =>
    match successors g i with
    | Some l => (length l <=? 8) && forallb (fun t => t <? length (nodes g)) l
    | None => false
    end) (seq 0 (length (nodes g))).

Lemma grid_shapedb_sound g : grid_shapedb g = true -> grid_shaped g.
Proof.
  unfold grid_shapedb, grid_shaped. rewrite forallb_forall. intros H i Hi.
  specialize (H i). rewrite in_seq in H.
  destruct (successors g i) as [l|]; [|discriminate H; lia].
  apply andb_prop in H as [H8 Hall]; [|lia].
  exists l. split; [done|]. split; [by apply Nat.leb_le|].
  apply Forall_forall. intros t Ht. apply Nat.ltb_lt.
  rewrite forallb_forall in Hall. apply Hall, list_elem_of_In, Ht.
Qed.

Lemma live_count_all_dead g i :
  (forall j nd, nodes g !! j = Some nd -> state nd = Cell Dead) ->
  live_count g i = 0.
Proof.
  intros Hdead. unfold live_count.
  destruct (successors g i) as [l|]; [|done].
  induction l as [|t l IH]; [done|]. rewrite filter_cons.
  case_decide as Ht; [|done]. exfalso.
  destruct (nodes g !! t) as [nd|] eqn:Hnd; simpl in Ht; [|discriminate].
  rewrite (Hdead t nd Hnd) in Ht. discriminate.
Qed.

Lemma lookup_fmap_length {A B} (f : nat -> A -> B) (l : list A) (l' : list B) :
  (forall i, l' !! i = f i <$> l !! i) -> length l' = length l.
Proof.
  intros H. assert (l' = imap f l) as ->.
  { apply list_eq. intros i. by rewrite H, list_lookup_imap. }
  apply length_imap.
Qed.

(** A 3x3 world with its centre cell alive. *)
Definition c1_grid : Graph :=
  match new_world 3 3 with
  | Some g => set_state g 4 (Cell Live)
  | None => Graph_new
  end.

(** Claim C1: one step is synchronous. For a well-formed rule table and a grid
    of at most [HEIGHT * WIDTH] nodes whose successors are nodes (as
    [new_world] builds it), [step] succeeds, keeps the edges and node
    positions, turns each cell [i] of state [s] into
    [Cell (rules[s][n].into())], where [n = live_count g i] is the number of
    Live successors of [i] in the PRE-step graph [g], and leaves menu nodes
    alone. In particular an all-Dead grid whose rule [rules[Dead][0]]
    converts to Dead stays all-Dead. *)
Theorem step_synchronous g rules :
  rules_wf rules -> length (nodes g) <= HEIGHT * WIDTH -> grid_shaped g ->
  exists g', step g rules = Some g' /\
    edges g' = edges g /\
    length (nodes g') = length (nodes g) /\
    (forall i nd, nodes g !! i = Some nd ->
       exists nd', nodes g' !! i = Some nd' /\
         x nd' = x nd /\ y nd' = y nd /\
         first_outgoing_edge nd' = first_outgoing_edge nd /\
         match state nd with
         | Cell s => exists v,
             rule_at rules (CellState_as_num s) (live_count g i) = Some v /\
             state nd' = Cell (CellState_from_u16 v)
         | Menu m => state nd' = Menu m
         end) /\
    ((forall i nd, nodes g !! i = Some nd -> state nd = Cell Dead) ->
     (exists v, rule_at rules 0 0 = Some v /\ CellState_from_u16 v = Dead) ->
     forall i nd', nodes g' !! i = Some nd' -> state nd' = Cell Dead).
Proof.
  intros Hwf Hlen Hg.
  destruct (step_neighbors_spec g Hg Hlen) as (nb & Hnb & Hnbi).
  destruct (step_update_spec g rules nb Hwf Hg Hnbi) as (g' & Hg' & Hedges & Hnodes).
  exists g'. unfold step. rewrite Hnb. simpl. split; [done|].
  split; [done|]. split; [by apply (lookup_fmap_length (stepped_node g rules))|].
  split.
  - intros i nd Hnd. rewrite Hnodes, Hnd. simpl. eexists. split; [done|].
    unfold stepped_node. destruct (state nd) as [s|m] eqn:Hs; simpl.
    + split; [done|]. split; [done|]. split; [done|].
      pose proof (lookup_lt_Some _ _ _ Hnd) as Hi.
      destruct (living_count_live_count g i Hg Hi) as [_ H8].
      destruct (rule_at_wf rules (CellState_as_num s) (live_count g i) Hwf)
        as [v Hv]; [destruct s; simpl; lia|lia|].
      exists v. rewrite Hv. done.
    + rewrite Hs. done.
  - intros Hdead (v & Hv & Hvd) i nd' Hnd'.
    rewrite Hnodes in Hnd'.
    destruct (nodes g !! i) as [nd|] eqn:Hnd; simpl in Hnd'; [|discriminate].
    injection Hnd' as <-. unfold stepped_node.
    rewrite (Hdead i nd Hnd), live_count_all_dead by done. simpl.
    rewrite Hv. simpl. rewrite Hvd. done.
Qed.

Lemma step_synchronous_witness :
  rules_wf conway_rules /\ length (nodes c1_grid) <= HEIGHT * WIDTH /\
  grid_shaped c1_grid /\
  exists g', step c1_grid conway_rules = Some g' /\ edges g' = edges c1_grid.
Proof.
  assert (Hwf : rules_wf conway_rules).
  { split; [reflexivity|]. repeat constructor. }
  assert (Hlen : length (nodes c1_grid) <= HEIGHT * WIDTH).
  { apply Nat.leb_le. vm_compute. reflexivity. }
  assert (Hg : grid_shaped c1_grid).
  { apply grid_shapedb_sound. vm_compute. reflexivity. }
  split; [exact Hwf|]. split; [exact Hlen|]. split; [exact Hg|].
  destruct (step_synchronous c1_grid conway_rules Hwf Hlen Hg) as (g' & H1 & H2 & _).
  exists g'. split; [exact H1|exact H2].
Defined.

(** *** The save/load monad *)

Lemma sm_bind_ok {R S} (m : SM R) (k : R -> SM S) w w' v :
  m w = Some (w', inl v) -> sm_bind m k w = k v w'.
Proof. intros H. unfold sm_bind. by rewrite H. Qed.

Lemma sm_bind_get {S} (k : World -> SM S) w : sm_bind sm_get k w = k w w.
Proof. done. Qed.

Lemma sm_bind_lift {R S} (o : option R) v (k : R -> SM S) w :
  o = Some v -> sm_bind (sm_lift o) k w = k v w.
Proof. intros ->. done. Qed.

Lemma sm_bind_read {S} (k : Z -> SM S) w off b :
  sram w !! off = Some b -> sm_bind (sram_read off) k w = k b w.
Proof. intros H. unfold sm_bind, sram_read. by rewrite H. Qed.

(** A loop writing [h l[k]] at [off + k] for [k] in [s..s+m]. *)
Lemma sm_for_writes {A} (l : list A) (h : A -> Z) (off : nat) (body : nat -> SM unit) :
  (forall k w, body k w = (v <-? sm_lift (l !! k) ;; sram_write (off + k) (h v)) w) ->
  forall m s w, s + m <= length l -> off + s + m <= length (sram w) ->
  exists s', sm_for (seq s m) body w = Some (mkWorld s' (world w) (rules w), inl tt) /\
    length s' = length (sram w) /\
    forall p, s' !! p = if decide (off + s <= p < off + s + m)
                        then h <$> l !! (p - off) else sram w !! p.
Proof.
  intros Hbody m. induction m as [|m IH]; intros s w Hl Hs.
  - exists (sram w). split; [by destruct w|]. split; [done|].
    intros p. rewrite decide_False by lia. done.
  - destruct (lookup_lt_is_Some_2 l s) as [v Hv]; [lia|].
    set (w1 := mkWorld (<[off + s := h v]> (sram w)) (world w) (rules w)).
    assert (Hstep : body s w = Some (w1, inl tt)).
    { rewrite Hbody. rewrite (sm_bind_lift _ v) by done.
      unfold sram_write. rewrite decide_True by lia. done. }
    cbn [seq sm_for]. rewrite (sm_bind_ok _ _ _ _ _ Hstep).
    destruct (IH (S s) w1) as (s' & Hrun & Hlen & Hlook).
    { lia. }
    { simpl. rewrite length_insert. lia. }
    exists s'. split; [exact Hrun|]. split; [rewrite Hlen; simpl; apply length_insert|].
    intros p. rewrite Hlook. simpl.
    destruct (decide (p = off + s)) as [->|Hne].
    + rewrite decide_False by lia. rewrite decide_True by lia.
      rewrite list_lookup_insert_eq by lia.
      replace (off + s - off) with s by lia. rewrite Hv. done.
    + rewrite list_lookup_insert_ne by lia.
      repeat case_decide; try done; lia.
Qed.

(** The bytes [save_world] leaves in the SRAM when byte 0 is nonzero and
    every offset it writes exists: one marker per node from offset 0, then
    row 0 and row 1 of the rules as [u8]. *)
Definition save_image (w : World) (row0 row1 : list Z) : list Z :=
  map (fun nd => cell_marker (state nd)) (nodes (world w)) ++
  map as_u8 row0 ++ map as_u8 row1 ++
  drop (length (nodes (world w)) + length row0 + length row1) (sram w).

Lemma save_world_spec w b0 row0 row1 :
  sram w !! 0 = Some b0 -> b0 <> 0%Z -> rules w = [row0; row1] ->
  length (nodes (world w)) + length row0 + length row1 <= length (sram w) ->
  save_world w = Some (mkWorld (save_image w row0 row1) (world w) (rules w), inl tt).
Proof.
  intros H0 Hb0 Hrules Hlen.
  set (N := length (nodes (world w))) in *.
  unfold save_world. rewrite (sm_bind_read _ _ 0 b0 H0). cbv beta.
  rewrite decide_True by done. rewrite sm_bind_get. cbv beta zeta.
  match goal with |- sm_bind (sm_for _ ?body) _ _ = _ =>
    destruct (sm_for_writes (nodes (world w)) (fun nd => cell_marker (state nd)) 0 body
                ltac:(intros; reflexivity) N 0 w) as (s1 & Hr1 & Hl1 & Hk1) end.
  { lia. }
  { lia. }
  rewrite (sm_bind_ok _ _ _ _ _ Hr1). cbv beta.
  rewrite (sm_bind_lift _ row0) by (rewrite Hrules; done). cbv beta zeta.
  match goal with |- sm_bind (sm_for _ ?body) _ _ = _ =>
    destruct (sm_for_writes row0 as_u8 N body ltac:(intros; reflexivity)
                (length row0) 0 (mkWorld s1 (world w) (rules w)))
      as (s2 & Hr2 & Hl2 & Hk2) end.
  { lia. }
  { simpl in *. lia. }
  rewrite (sm_bind_ok _ _ _ _ _ Hr2). cbv beta.
  rewrite (sm_bind_lift _ row1) by (rewrite Hrules; done). cbv beta zeta.
  cbn [world rules].
  match goal with |- sm_for _ ?body _ = _ =>
    destruct (sm_for_writes row1 as_u8 (N + length row0) body ltac:(intros; reflexivity)
                (length row1) 0 (mkWorld s2 (world w) (rules w)))
      as (s3 & Hr3 & Hl3 & Hk3) end.
  { lia. }
  { simpl in *. lia. }
  rewrite Hr3. simpl. do 3 f_equal.
  apply list_eq. intros p. rewrite Hk3. simpl in Hk2. rewrite Hk2. rewrite Hk1.
  unfold save_image. fold N.
  destruct (decide (p < N)) as [Hp|Hp].
  { rewrite lookup_app_l by (rewrite length_map; lia).
    rewrite list_lookup_fmap, Nat.sub_0_r.
    repeat case_decide; try lia. done. }
  rewrite lookup_app_r by (rewrite length_map; lia). rewrite length_map.
  destruct (decide (p < N + length row0)) as [Hp0|Hp0].
  { rewrite lookup_app_l by (rewrite length_map; lia).
    rewrite list_lookup_fmap.
    repeat case_decide; try lia. done. }
  rewrite lookup_app_r by (rewrite length_map; lia). rewrite length_map.
  destruct (decide (p < N + length row0 + length row1)) as [Hp1|Hp1].
  { rewrite lookup_app_l by (rewrite length_map; lia).
    rewrite list_lookup_fmap.
    repeat case_decide; try lia.
    f_equal. f_equal. unfold N. lia. }
  rewrite lookup_app_r by (rewrite length_map; lia). rewrite length_map.
  rewrite lookup_drop.
  repeat case_decide; try lia. f_equal. lia.
Qed.

(** Node [nd] at index [p] after [load_world] read its byte. *)
Definition loaded_node (bytes : list Z) (p : nat) (nd : NodeData) : NodeData :=
  mkNode (decode_cell (default 0%Z (bytes !! p))) (x nd) (y nd) (first_outgoing_edge nd).

(** The cell loop of [load_world] over [s..s+m]. *)
Lemma sm_for_load_cells (body : nat -> SM unit) :
  (forall k w, body k w =
     (b <-? sram_read k ;; sm_modify (set_world_state k (decode_cell b))) w) ->
  forall m s w, s + m <= length (sram w) ->
  exists g', sm_for (seq s m) body w = Some (mkWorld (sram w) g' (rules w), inl tt) /\
    edges g' = edges (world w) /\
    forall p, nodes g' !! p = if decide (s <= p < s + m)
                              then loaded_node (sram w) p <$> nodes (world w) !! p
                              else nodes (world w) !! p.
Proof.
  intros Hbody m. induction m as [|m IH]; intros s w Hs.
  - exists (world w). split; [by destruct w|]. split; [done|].
    intros p. rewrite decide_False by lia. done.
  - destruct (lookup_lt_is_Some_2 (sram w) s) as [b Hb]; [lia|].
    set (w1 := set_world_state s (decode_cell b) w).
    assert (Hstep : body s w = Some (w1, inl tt)).
    { rewrite Hbody. rewrite (sm_bind_read _ _ s b) by done. done. }
    cbn [seq sm_for]. rewrite (sm_bind_ok _ _ _ _ _ Hstep).
    destruct (IH (S s) w1) as (g' & Hrun & Hedges & Hlook); [simpl; lia|].
    exists g'. split; [exact Hrun|]. split; [done|].
    intros p. rewrite Hlook. unfold w1, set_world_state. cbn [sram world].
    rewrite set_state_lookup.
    destruct (decide (p = s)) as [->|Hne].
    + rewrite decide_False by lia. rewrite !decide_True by lia.
      unfold loaded_node. rewrite Hb. done.
    + repeat case_decide; try done; lia.
Qed.

(** A rule loop of [load_world]: row [r] entries [s..s+m] read from
    [off + k]. *)
Lemma sm_for_load_row (r off : nat) (body : nat -> SM unit) :
  (forall k w, body k w =
     (b <-? sram_read (off + k) ;;
      w' <-? sm_get ;;
      rr <-? sm_lift (rule_set (rules w') r k b) ;;
      sm_modify (set_rules rr)) w) ->
  forall m s w row, rules w !! r = Some row -> s + m <= length row ->
  off + s + m <= length (sram w) ->
  exists row', sm_for (seq s m) body w =
      Some (mkWorld (sram w) (world w) (<[r := row']> (rules w)), inl tt) /\
    length row' = length row /\
    forall p, row' !! p = if decide (s <= p < s + m) then sram w !! (off + p) else row !! p.
Proof.
  intros Hbody m. induction m as [|m IH]; intros s w row Hrow Hl Hs.
  - exists row. split.
    + rewrite list_insert_id by done. by destruct w.
    + split; [done|]. intros p. rewrite decide_False by lia. done.
  - destruct (lookup_lt_is_Some_2 (sram w) (off + s)) as [b Hb]; [lia|].
    destruct (lookup_lt_is_Some_2 row s) as [c0 Hc0]; [lia|].
    pose proof (lookup_lt_Some _ _ _ Hrow) as Hr.
    set (w1 := set_rules (<[r := <[s := b]> row]> (rules w)) w).
    assert (Hstep : body s w = Some (w1, inl tt)).
    { rewrite Hbody. rewrite (sm_bind_read _ _ _ b) by done. rewrite sm_bind_get.
      rewrite (sm_bind_lift _ (<[r := <[s := b]> row]> (rules w))); [done|].
      unfold rule_set. rewrite Hrow. simpl. rewrite Hc0. done. }
    cbn [seq sm_for]. rewrite (sm_bind_ok _ _ _ _ _ Hstep).
    destruct (IH (S s) w1 (<[s := b]> row)) as (row' & Hrun & Hlen & Hlook).
    { simpl. rewrite list_lookup_insert_eq by done. done. }
    { rewrite length_insert. lia. }
    { simpl. lia. }
    exists row'. split.
    + rewrite Hrun. unfold w1, set_rules. cbn [sram world rules].
      rewrite list_insert_insert_eq. done.
    + split; [rewrite Hlen; apply length_insert|].
      intros p. rewrite Hlook. simpl.
      destruct (decide (p = s)) as [->|Hne].
      * rewrite decide_False by lia. rewrite decide_True by lia.
        rewrite list_lookup_insert_eq by lia. done.
      * rewrite list_lookup_insert_ne by lia. repeat case_decide; try done; lia.
Qed.

Lemma load_world_spec w b0 row0 row1 :
  sram w !! 0 = Some b0 -> b0 <> 0%Z -> rules w = [row0; row1] ->
  length row1 = length row0 ->
  length (nodes (world w)) + length row0 + length row0 <= length (sram w) ->
  exists g' row0' row1',
    load_world w = Some (mkWorld (sram w) g' [row0'; row1'], inl tt) /\
    edges g' = edges (world w) /\
    (forall p, nodes g' !! p = loaded_node (sram w) p <$> nodes (world w) !! p) /\
    length row0' = length row0 /\ length row1' = length row1 /\
    (forall c, c < length row0 ->
       row0' !! c = sram w !! (length (nodes (world w)) + c) /\
       row1' !! c = sram w !! (length (nodes (world w)) + length row0 + c)).
Proof.
  intros H0 Hb0 Hrules Hl1 Hlen.
  set (N := length (nodes (world w))) in *.
  unfold load_world. rewrite (sm_bind_read _ _ 0 b0 H0). cbv beta.
  rewrite decide_True by done. rewrite sm_bind_get. cbv beta zeta.
  match goal with |- context [sm_bind (sm_for (seq 0 _) ?body) _ w] =>
    destruct (sm_for_load_cells body ltac:(intros; reflexivity) N 0 w)
      as (g1 & Hr1 & He1 & Hk1) end.
  { lia. }
  rewrite (sm_bind_ok _ _ _ _ _ Hr1). cbv beta.
  rewrite (sm_bind_lift _ row0) by (rewrite Hrules; done). cbv beta zeta.
  match goal with |- context [sm_bind (sm_for (seq 0 (length row0)) ?body) _ _] =>
    destruct (sm_for_load_row 0 N body ltac:(intros; reflexivity)
                (length row0) 0 (mkWorld (sram w) g1 (rules w)) row0)
      as (row0' & Hr2 & Hl2 & Hk2) end.
  { simpl. rewrite Hrules. done. }
  { lia. }
  { simpl. lia. }
  rewrite (sm_bind_ok _ _ _ _ _ Hr2). cbv beta. cbn [sram world rules] in *.
  rewrite Hrules in *. cbn [insert list_insert].
  match goal with |- context [sm_for (seq 0 (length row0)) ?body _] =>
    destruct (sm_for_load_row 1 (N + length row0) body ltac:(intros; reflexivity)
                (length row0) 0 (mkWorld (sram w) g1 [row0'; row1]) row1)
      as (row1' & Hr3 & Hl3 & Hk3) end.
  { done. }
  { lia. }
  { simpl. lia. }
  exists g1, row0', row1'. split; [rewrite Hr3; done|].
  split; [done|]. split.
  { intros p. rewrite Hk1. case_decide; [done|].
    rewrite (proj2 (lookup_ge_None _ _)) by lia. done. }
  split; [done|]. split; [done|].
  intros c Hc. rewrite Hk2, Hk3. simpl.
  rewrite !decide_True by lia. done.
Qed.

Lemma rules_wf_shape rules :
  rules_wf rules ->
  exists row0 row1, rules = [row0; row1] /\ length row0 = 9 /\ length row1 = 9.
Proof.
  intros [Hlen Hrows].
  destruct rules as [|row0 [|row1 [|? ?]]]; simpl in Hlen; try lia.
  inversion Hrows as [|? ? Hr0 Hrest]. inversion Hrest as [|? ? Hr1 _].
  by exists row0, row1.
Qed.

Lemma conway_rules_wf : rules_wf conway_rules.
Proof. split; [reflexivity|]. repeat constructor. Qed.

Lemma reset_rules_wf rules : rules_wf rules -> reset_rules rules = Some conway_rules.
Proof.
  intros Hwf. destruct (rules_wf_shape rules Hwf) as (row0 & row1 & -> & H0 & H1).
  do 9 (destruct row0 as [|? row0]; simpl in H0; [lia|]).
  destruct row0; simpl in H0; [|lia].
  do 9 (destruct row1 as [|? row1]; simpl in H1; [lia|]).
  destruct row1; simpl in H1; [|lia].
  reflexivity.
Qed.

Lemma menu_new_spec w :
  rules_wf (rules w) -> nodes (world w) <> [] ->
  exists w', menu_new w = Some w' /\
    sram w' = sram w /\ rules w' = conway_rules /\
    edges (world w') = edges (world w) /\
    forall p, nodes (world w') !! p =
      (fun nd => mkNode (Cell Dead) (x nd) (y nd) (first_outgoing_edge nd))
        <$> nodes (world w) !! p.
Proof.
  intros Hwf Hne. unfold menu_new.
  assert (forall k, k <= length (nodes (world w)) ->
    exists wk, for_each (seq 0 k)
      (fun w i =>
         let w := set_world_state i (Cell Dead) w in
         r ← reset_rules (rules w);
         Some (set_rules r w)) w = Some wk /\
    sram wk = sram w /\ rules_wf (rules wk) /\
    (0 < k -> rules wk = conway_rules) /\
    edges (world wk) = edges (world w) /\
    forall p, nodes (world wk) !! p =
      if decide (p < k)
      then (fun nd => mkNode (Cell Dead) (x nd) (y nd) (first_outgoing_edge nd))
             <$> nodes (world w) !! p
      else nodes (world w) !! p) as Hk.
  { induction k as [|k IH]; intros Hkl.
    - exists w. split; [done|]. split; [done|]. split; [done|]. split; [lia|].
      split; [done|]. intros p. rewrite decide_False by lia. done.
    - destruct IH as (wk & Hrun & Hs & Hwk & Hc & He & Hn); [lia|].
      rewrite seq_S, for_each_app, Hrun. simpl.
      rewrite reset_rules_wf by done. simpl.
      eexists. split; [done|]. simpl. split; [done|]. split; [apply conway_rules_wf|].
      split; [done|]. split; [done|].
      intros p. rewrite list_lookup_alter, !Hn.
      destruct (decide (k = p)) as [<-|Hne'].
      + rewrite decide_False by lia. rewrite decide_True by lia.
        destruct (nodes (world w) !! k); done.
      + repeat case_decide; try done; lia. }
  destruct (Hk (length (nodes (world w)))) as (w' & Hrun & Hs & _ & Hc & He & Hn); [done|].
  exists w'. split; [done|]. split; [done|].
  split; [apply Hc; destruct (nodes (world w)); [done|simpl; lia]|].
  split; [done|]. intros p. rewrite Hn. case_decide; [done|].
  rewrite (proj2 (lookup_ge_None _ _)) by lia. done.
Qed.

(** ** Save and load, and the New entry *)

(** A 3x3 world with SRAM byte 0 set, and room for the whole save. *)
Definition c2_world : World := mkWorld (1%Z :: repeat 0%Z 26) c1_grid conway_rules.

(** The same world with SRAM byte 0 clear. *)
Definition c3_world : World := mkWorld (repeat 0%Z 27) c1_grid conway_rules.

(** A present save whose first rule byte ([rules[0][0]]) is [2]. *)
Definition c4_world : World :=
  mkWorld ([1%Z] ++ repeat 0%Z 8 ++ [2%Z] ++ repeat 0%Z 17) c1_grid conway_rules.

(** A settings graph made of the single entry [Menu(New)]. *)
Definition c9_settings : Graph := mkGraph [mkNode (Menu New) 0 0 None] [].

(** Claim C2, counterexample: with byte 0 set to [1] and cell 4 Live,
    [save_world] puts cell 0's marker [b'D'] (68) at offset 0 and cell 4's
    marker [b'L'] (76) at offset 4, where a layout [flag][cells] would put
    it at offset 5. *)
Lemma save_world_no_flag_byte :
  sram c2_world !! 0 = Some 1%Z /\
  state <$> nodes (world c2_world) !! 4 = Some (Cell Live) /\
  option_map (fun r => take 6 (sram (fst r))) (save_world c2_world) =
    Some [68; 68; 68; 68; 76; 68]%Z.
Proof. split; [reflexivity|]. split; vm_compute; reflexivity. Qed.

(** Claim C2, amended: when SRAM byte 0 is nonzero, the table has rows
    [row0] and [row1] of 9 entries and the SRAM holds at least
    [N + 18] bytes ([N] the number of world nodes), [save_world] succeeds and
    leaves the SRAM as: one marker byte per node in node order starting at
    offset 0 ([b'L'], [b'D'] or [b'X']), then row 0 and row 1 as [u8],
    the remaining bytes unchanged. There is no separate flag byte: offset 0,
    read as the flag, receives the marker of the first node. *)
Theorem save_world_layout w b0 row0 row1 :
  sram w !! 0 = Some b0 -> b0 <> 0%Z ->
  rules w = [row0; row1] -> length row0 = 9 -> length row1 = 9 ->
  length (nodes (world w)) + 18 <= length (sram w) ->
  save_world w =
    Some (mkWorld (map (fun nd => cell_marker (state nd)) (nodes (world w)) ++
                   map as_u8 row0 ++ map as_u8 row1 ++
                   drop (length (nodes (world w)) + 18) (sram w))
                  (world w) (rules w), inl tt).
Proof.
  intros H0 Hb0 Hrules Hl0 Hl1 Hlen.
  rewrite (save_world_spec w b0 row0 row1 H0 Hb0 Hrules) by lia.
  unfold save_image. rewrite Hl0, Hl1.
  replace (length (nodes (world w)) + 9 + 9) with (length (nodes (world w)) + 18) by lia.
  done.
Qed.

Lemma save_world_layout_witness :
  save_world c2_world =
    Some (mkWorld (map (fun nd => cell_marker (state nd)) (nodes (world c2_world)) ++
                   map as_u8 [0;0;0;1;0;0;0;0;0]%Z ++
                   map as_u8 [0;0;1;1;0;0;0;0;0]%Z ++
                   drop (length (nodes (world c2_world)) + 18) (sram c2_world))
                  (world c2_world) (rules c2_world), inl tt).
Proof.
  apply (save_world_layout c2_world 1%Z).
  - reflexivity.
  - lia.
  - reflexivity.
  - reflexivity.
  - reflexivity.
  - apply Nat.leb_le. vm_compute. reflexivity.
Defined.

(** Claim C3: when SRAM byte 0 is zero, [load_world] succeeds and changes
    nothing: the SRAM, the world graph and the rule table are as before. *)
Theorem load_world_flag_zero w :
  sram w !! 0 = Some 0%Z -> load_world w = Some (w, inl tt).
Proof.
  intros H0. unfold load_world. rewrite (sm_bind_read _ _ 0 0%Z H0). cbv beta.
  rewrite decide_False by (intros Hne; apply Hne; reflexivity). done.
Qed.

Lemma load_world_flag_zero_witness :
  sram c3_world !! 0 = Some 0%Z /\ load_world c3_world = Some (c3_world, inl tt).
Proof.
  split; [reflexivity|]. apply load_world_flag_zero. reflexivity.
Defined.

(** Claim C4, counterexample: loading a present save whose rule byte for
    [rules[0][0]] is [2] stores [2] in the table, and a rule lookup turns [2]
    into Dead, not Live. *)
Lemma load_world_rule_byte_two :
  sram c4_world !! 0 = Some 1%Z /\
  sram c4_world !! 9 = Some 2%Z /\
  option_map (fun r => rule_at (rules (fst r)) 0 0) (load_world c4_world) =
    Some (Some 2%Z) /\
  CellState_from_u16 2 = Dead.
Proof. split; [reflexivity|]. split; [reflexivity|]. split; vm_compute; reflexivity. Qed.

(** Claim C4, amended: when SRAM byte 0 is nonzero, the table is well formed
    and the SRAM holds [N + 18] bytes, [load_world] succeeds and stores every
    rule byte [b] unchanged ([b.into()], a value in 0..255): [rules[r][c]] is
    the byte at offset [N + 9 r + c]. A later rule lookup converts it with
    [From<u16>], which gives Live for [1] only: [0] and every byte other than
    [1] (such as [2] or [255]) behave as Dead. *)
Theorem load_world_rule_bytes w b0 :
  sram w !! 0 = Some b0 -> b0 <> 0%Z -> rules_wf (rules w) ->
  length (nodes (world w)) + 18 <= length (sram w) ->
  exists w', load_world w = Some (w', inl tt) /\
    rules_wf (rules w') /\
    forall r c, r < 2 -> c < 9 ->
      exists b, sram w !! (length (nodes (world w)) + 9 * r + c) = Some b /\
        rule_at (rules w') r c = Some b /\
        (CellState_from_u16 b = Live <-> b = 1%Z).
Proof.
  intros H0 Hb0 Hwf Hlen.
  destruct (rules_wf_shape _ Hwf) as (row0 & row1 & Hrules & Hl0 & Hl1).
  destruct (load_world_spec w b0 row0 row1 H0 Hb0 Hrules) as
    (g' & row0' & row1' & Hrun & _ & _ & Hl0' & Hl1' & Hrows); [lia|lia|].
  exists (mkWorld (sram w) g' [row0'; row1']). split; [exact Hrun|]. split.
  { split; [done|]. repeat constructor; simpl; lia. }
  intros r c Hr Hc.
  destruct (lookup_lt_is_Some_2 (sram w) (length (nodes (world w)) + 9 * r + c))
    as [b Hb]; [lia|].
  exists b. split; [done|]. split.
  - destruct (Hrows c) as [Hc0 Hc1]; [lia|].
    destruct r as [|[|r]]; [|  |lia]; unfold rule_at; simpl.
    + rewrite Hc0, <- Hb. f_equal. lia.
    + rewrite Hc1, <- Hb. f_equal. lia.
  - unfold CellState_from_u16.
    destruct b as [|[p|p|]|p]; split; intros H; try discriminate; done.
Qed.

Lemma load_world_rule_bytes_witness :
  exists w', load_world c4_world = Some (w', inl tt) /\ rule_at (rules w') 0 0 = Some 2%Z.
Proof.
  destruct (load_world_rule_bytes c4_world 1%Z) as (w' & Hrun & _ & Hb).
  - reflexivity.
  - lia.
  - apply conway_rules_wf.
  - apply Nat.leb_le. vm_compute. reflexivity.
  - exists w'. split; [exact Hrun|].
    destruct (Hb 0 0) as (b & Hsram & Hrule & _); [lia|lia|].
    rewrite Hrule. vm_compute in Hsram. congruence.
Defined.

(** Claim C9: pressing A on the [Menu(New)] entry of the settings graph, for
    a well-formed rule table and a nonempty world, succeeds, sets every world
    node to [Cell(Dead)] (positions and edges kept) and leaves the rule table
    equal to Conway's: [rules[0][3] = rules[1][2] = rules[1][3] = 1], the 15
    other entries [0]. The settings graph and the SRAM are unchanged. *)
Theorem config_new_resets gs cursor w n :
  nodes gs !! cursor = Some n -> state n = Menu New ->
  rules_wf (rules w) -> nodes (world w) <> [] ->
  exists w', config_press_a gs cursor w = Some (gs, w') /\
    rules w' = [[0; 0; 0; 1; 0; 0; 0; 0; 0]; [0; 0; 1; 1; 0; 0; 0; 0; 0]]%Z /\
    sram w' = sram w /\
    edges (world w') = edges (world w) /\
    length (nodes (world w')) = length (nodes (world w)) /\
    forall p nd, nodes (world w') !! p = Some nd -> state nd = Cell Dead.
Proof.
  intros Hn Hs Hwf Hne.
  destruct (menu_new_spec w Hwf Hne) as (w' & Hrun & Hsram & Hrules & Hedges & Hnodes).
  exists w'. split.
  { unfold config_press_a. rewrite Hn. simpl. rewrite Hs, Hrun. done. }
  split; [exact Hrules|]. split; [done|]. split; [done|]. split.
  { rewrite (lookup_fmap_length (fun _ nd => mkNode (Cell Dead) (x nd) (y nd)
                                      (first_outgoing_edge nd))
               (nodes (world w)) (nodes (world w')) Hnodes). done. }
  intros p nd Hp. rewrite Hnodes in Hp.
  destruct (nodes (world w) !! p); simpl in Hp; [|discriminate].
  injection Hp as <-. done.
Qed.

Lemma config_new_resets_witness :
  exists w', config_press_a c9_settings 0 c2_world = Some (c9_settings, w') /\
    rules w' = conway_rules.
Proof.
  destruct (config_new_resets c9_settings 0 c2_world (mkNode (Menu New) 0 0 None))
    as (w' & Hrun & Hrules & _).
  - reflexivity.
  - reflexivity.
  - apply conway_rules_wf.
  - vm_compute. discriminate.
  - exists w'. split; [exact Hrun|exact Hrules].
Defined.

(** Claim C10, counterexample: with SRAM byte 0 equal to [1], [save_world]
    writes offset 0, replacing the [1] by cell 0's marker [b'D'] (68). *)
Lemma save_world_overwrites_flag :
  sram c2_world !! 0 = Some 1%Z /\
  option_map (fun r => sram (fst r) !! 0) (save_world c2_world) = Some (Some 68%Z).
Proof. split; [reflexivity|]. vm_compute. reflexivity. Qed.

(** Claim C10, amended: [save_world] reads SRAM byte 0; when it is zero the
    call succeeds and changes nothing (SRAM, world graph and rules as
    before). When it is nonzero (table well formed, SRAM of at least
    [N + 18] bytes, world nonempty) the call writes offset 0 itself: the byte
    becomes the marker of node 0, which is nonzero, so a present save stays
    marked present but the flag value is not kept. *)
Theorem save_world_flag_byte w b0 :
  sram w !! 0 = Some b0 ->
  (b0 = 0%Z -> save_world w = Some (w, inl tt)) /\
  (b0 <> 0%Z -> rules_wf (rules w) ->
   length (nodes (world w)) + 18 <= length (sram w) ->
   forall nd, nodes (world w) !! 0 = Some nd ->
   exists w', save_world w = Some (w', inl tt) /\
     sram w' !! 0 = Some (cell_marker (state nd)) /\
     cell_marker (state nd) <> 0%Z).
Proof.
  intros H0. split.
  - intros ->. unfold save_world. rewrite (sm_bind_read _ _ 0 0%Z H0). cbv beta.
    rewrite decide_False by (intros Hne; apply Hne; reflexivity). done.
  - intros Hb0 Hwf Hlen nd Hnd.
    destruct (rules_wf_shape _ Hwf) as (row0 & row1 & Hrules & Hl0 & Hl1).
    rewrite (save_world_spec w b0 row0 row1 H0 Hb0 Hrules) by lia.
    eexists. split; [reflexivity|]. split.
    + unfold save_image. simpl. destruct (nodes (world w)) as [|nd0 ns]; [done|].
      simpl in Hnd. injection Hnd as ->. done.
    + unfold cell_marker, byte_L, byte_D, byte_X.
      destruct (state nd) as [[|]|]; discriminate.
Qed.

Lemma save_world_flag_byte_witness :
  sram c3_world !! 0 = Some 0%Z /\ save_world c3_world = Some (c3_world, inl tt).
Proof.
  split; [reflexivity|].
  destruct (save_world_flag_byte c3_world 0%Z) as [Hz _]; [reflexivity|].
  apply Hz. reflexivity.
Defined.

(** * Further properties of the code *)

(** ** Node data of a built graph, and cursor moves on the world *)

(** The data of a node that [add_edge] leaves alone. *)
Definition node_view (nd : NodeData) : NodeType * nat * nat := (state nd, x nd, y nd).

(** The [(state, x, y)] of the [add_node] calls of a sequence, in order. *)
Fixpoint node_views (ops : list graph_op) : list (NodeType * nat * nat) :=
  match ops with
  | [] => []
  | OpNode x y st :: ops' => (st, x, y) :: node_views ops'
  | OpEdge _ _ _ :: ops' => node_views ops'
  end.


Lemma node_views_app ops1 ops2 :
  node_views (ops1 ++ ops2) = node_views ops1 ++ node_views ops2.
Proof. induction ops1 as [|[] ops1 IH]; simpl; rewrite ?IH; done. Qed.

Lemma run_ops_views ops g :
  run_ops ops Graph_new = Some g -> map node_view (nodes g) = node_views ops.
Proof.
  revert g. induction ops as [|o ops IH] using rev_ind; intros g H.
  - injection H as <-. done.
  - unfold run_ops in *. rewrite for_each_app in H.
    destruct (for_each ops run_op Graph_new) as [g0|] eqn:H0; simpl in H; [|done].
    rewrite node_views_app, <- (IH g0 eq_refl).
    destruct o as [x0 y0 st | src tgt d]; simpl in H.
    + injection H as <-. simpl. rewrite map_app. done.
    + unfold add_edge in H.
      destruct (nodes g0 !! src) as [nds|] eqn:Hsrc; simpl in H; [|done].
      injection H as <-. simpl. rewrite app_nil_r.
      apply list_eq. intros p. rewrite !list_lookup_fmap.
      destruct (decide (p = src)) as [->|Hne].
      * rewrite list_lookup_insert_eq by (eapply lookup_lt_Some; eauto).
        rewrite Hsrc. done.
      * rewrite list_lookup_insert_ne by done. done.
Qed.

Lemma world_ops_views width height :
  node_views (world_ops width height) =
  map (fun i => (Cell Dead, i mod width, i / width)) (seq 0 (width * height)).
Proof.
  unfold world_ops. rewrite node_views_app.
  assert (forall l, node_views (flat_map (fun i => flat_map
            (fun j => cell_edge_ops width height i j) (seq 0 height)) l) = []) as ->.
  { assert (forall i l', node_views (flat_map
              (fun j => cell_edge_ops width height i j) l') = []) as Hrow.
    { intros i l'. induction l' as [|j l' IH']; [done|]. cbn [flat_map].
      rewrite node_views_app, IH'. done. }
    intros l. induction l as [|i l IH]; [done|]. cbn [flat_map].
    rewrite node_views_app, IH, Hrow. done. }
  rewrite app_nil_r. induction (seq 0 (width * height)) as [|i l IH]; simpl; congruence.
Qed.





(** [new_world] places node [k] at column [k mod width], row [k / width],
    as a dead cell. *)
Theorem new_world_layout width height :
  1 <= width -> 1 <= height -> width * height < 2 ^ 16 ->
  exists g, new_world width height = Some g /\
    length (nodes g) = width * height /\
    forall k nd, nodes g !! k = Some nd ->
      state nd = Cell Dead /\ x nd = k mod width /\ y nd = k / width.
Proof.
  intros Hw Hh Hsz.
  destruct (new_world_built width height) as (g & Hg & Hrun & Hlen); [done|done|done|].
  exists g. split; [done|]. split; [done|].
  intros k nd Hk.
  pose proof (run_ops_views _ _ Hrun) as Hv. rewrite world_ops_views in Hv.
  assert (Hk' : map node_view (nodes g) !! k = Some (node_view nd))
    by (rewrite list_lookup_fmap, Hk; done).
  rewrite Hv, list_lookup_fmap in Hk'.
  assert (k < width * height) by (pose proof (lookup_lt_Some _ _ _ Hk); lia).
  rewrite lookup_seq_lt in Hk' by done.
  simpl in Hk'. unfold node_view in Hk'. injection Hk' as -> -> ->. done.
Qed.

Lemma new_world_layout_witness :
  exists g, new_world 4 3 = Some g /\ length (nodes g) = 12.
Proof.
  destruct (new_world_layout 4 3) as (g & Hg & Hlen & _).
  - lia.
  - lia.
  - apply Nat.ltb_lt. vm_compute. reflexivity.
  - exists g. split; [exact Hg|exact Hlen].
Defined.



Lemma edges_from_In s ops d t :
  In (d, t) (edges_from s ops) -> In (OpEdge s t d) ops.
Proof.
  induction ops as [|o ops IH]; simpl; [done|].
  destruct o as [x0 y0 st|s' t' d']; [intros H; right; auto|].
  case_decide as Hs; simpl; [|intros H; right; auto].
  intros [Heq|H]; [injection Heq as -> ->; subst; left; done|right; auto].
Qed.

Lemma world_edge_targets width height :
  1 <= width -> 1 <= height ->
  Forall (fun o => exists s t d, o = OpEdge s t d /\ t < width * height)
    (flat_map (fun i => flat_map (fun j => cell_edge_ops width height i j) (seq 0 height))
              (seq 0 width)).
Proof.
  intros Hw Hh. apply Forall_forall. intros o Ho.
  apply list_elem_of_In in Ho. apply in_flat_map in Ho as (i & Hi & Ho). apply in_flat_map in Ho as (j & Hj & Ho).
  apply in_seq in Hi, Hj.
  destruct (perm_on_succ width) as [Hsw _]. destruct (perm_on_succ height) as [Hsh _].
  destruct (perm_on_pred width) as [Hpw _].
  specialize (Hsw i ltac:(lia)). specialize (Hsh j ltac:(lia)).
  specialize (Hpw i ltac:(lia)).
  unfold cell_edge_ops in Ho.
  rewrite n_right_form, n_down_form, n_down_right_form, n_down_left_form in Ho.
  unfold n_here in Ho.
  repeat destruct Ho as [<-|Ho]; try done; do 3 eexists; split; try done; nia.
Qed.

Lemma new_world_succ width height g n :
  1 <= width -> 1 <= height -> width * height < 2 ^ 16 ->
  new_world width height = Some g -> n < width * height ->
  exists l, successors g n = Some l /\ length l = 8 /\
    Forall (fun t => t < width * height) l.
Proof.
  intros Hw Hh Hsz Hg Hn.
  destruct (new_world_built width height) as (g' & Hg' & Hrun & Hlen); [done|done|done|].
  rewrite Hg in Hg'. injection Hg' as <-.
  destruct (out_edges_built _ g n Hrun) as (l & Hl & Hv); [lia|].
  exists (map target l). unfold successors. rewrite Hl. split; [done|]. split.
  - rewrite length_map.
    rewrite <- (length_map edge_view), Hv, length_rev, edges_from_world, length_flat_map.
    rewrite (sum_list_with_ext _ _ _ (fun p => cell_length width height n p.1 p.2)).
    rewrite !sum_list_with_add.
    rewrite sum_here, sum_right, sum_down, sum_down_right, sum_down_left by done.
    done.
  - apply Forall_forall. intros t Ht.
    apply list_elem_of_In, in_map_iff in Ht as (e & <- & He).
    assert (Hin : In (edge_view e) (map edge_view l)) by (apply in_map; done).
    rewrite Hv in Hin. apply in_rev, edges_from_In in Hin.
    unfold world_ops in Hin. apply in_app_or in Hin as [Hin|Hin].
    + apply in_map_iff in Hin as (k & Hk & _). discriminate.
    + pose proof (world_edge_targets width height Hw Hh) as Hall.
      rewrite Forall_forall in Hall.
      destruct (Hall _ (proj2 (list_elem_of_In _ _) Hin)) as (s & t & d & Heq & Ht).
      injection Heq as _ -> _. done.
Qed.

Lemma new_world_grid_shaped width height g :
  1 <= width -> 1 <= height -> width * height < 2 ^ 16 ->
  new_world width height = Some g -> grid_shaped g.
Proof.
  intros Hw Hh Hsz Hg.
  destruct (new_world_built width height) as (g' & Hg' & _ & Hlen); [done|done|done|].
  rewrite Hg in Hg'. injection Hg' as <-.
  intros n Hn. rewrite Hlen in *.
  destruct (new_world_succ width height g n Hw Hh Hsz Hg Hn) as (l & Hl & H8 & Hall).
  exists l. split; [done|]. split; [lia|done].
Qed.

(** Every node of the world that [new_world] builds, whatever its size
    (also a width or height of 1 or 2), has exactly 8 successors, and all of
    them are nodes of the world. *)
Theorem new_world_successors width height g n :
  1 <= width -> 1 <= height -> width * height < 2 ^ 16 ->
  new_world width height = Some g -> n < width * height ->
  exists l, successors g n = Some l /\ length l = 8 /\
    Forall (fun t => t < length (nodes g)) l.
Proof.
  intros Hw Hh Hsz Hg Hn.
  destruct (new_world_built width height) as (g' & Hg' & _ & Hlen); [done|done|done|].
  rewrite Hg in Hg'. injection Hg' as <-. rewrite Hlen.
  apply (new_world_succ width height g n Hw Hh Hsz Hg Hn).
Qed.

Lemma new_world_successors_witness :
  exists g, new_world 1 2 = Some g /\
    exists l, successors g 1 = Some l /\ length l = 8.
Proof.
  destruct (new_world_built 1 2) as (g & Hg & _); [lia|lia|apply Nat.ltb_lt; vm_compute; reflexivity|].
  exists g. split; [exact Hg|].
  destruct (new_world_successors 1 2 g 1) as (l & Hl & H8 & _).
  - lia.
  - lia.
  - apply Nat.ltb_lt. vm_compute. reflexivity.
  - exact Hg.
  - lia.
  - exists l. split; [exact Hl|exact H8].
Defined.

(** [n] generations of the [GameState::Running] branch. *)
Fixpoint step_n (k : nat) (g : Graph) (rules : Rules) : option Graph :=
  match k with
  | O => Some g
  | S k' => g' ← step g rules; step_n k' g' rules
  end.

(** Two graphs with the same edges and the same list heads. *)
Definition same_links (g g' : Graph) : Prop :=
  edges g' = edges g /\
  forall i, first_outgoing_edge <$> nodes g' !! i = first_outgoing_edge <$> nodes g !! i.

Lemma same_links_successors g g' i :
  same_links g g' -> successors g' i = successors g i.
Proof.
  intros [He Hn]. specialize (Hn i). unfold successors, out_edges. rewrite He.
  destruct (nodes g' !! i), (nodes g !! i); simpl in Hn; try discriminate; [|done].
  injection Hn as Hn. simpl. rewrite Hn. done.
Qed.

Lemma same_links_length g g' :
  same_links g g' -> length (nodes g') = length (nodes g).
Proof.
  intros [_ Hn].
  destruct (decide (length (nodes g') <= length (nodes g))) as [H|H].
  - destruct (decide (length (nodes g') = length (nodes g))) as [|Hne]; [done|].
    specialize (Hn (length (nodes g'))).
    rewrite (proj2 (lookup_ge_None (nodes g') _)) in Hn by lia.
    destruct (lookup_lt_is_Some_2 (nodes g) (length (nodes g'))) as [nd Hnd]; [lia|].
    rewrite Hnd in Hn. discriminate.
  - specialize (Hn (length (nodes g))).
    rewrite (proj2 (lookup_ge_None (nodes g) _)) in Hn by lia.
    destruct (lookup_lt_is_Some_2 (nodes g') (length (nodes g))) as [nd Hnd]; [lia|].
    rewrite Hnd in Hn. discriminate.
Qed.

Lemma same_links_grid_shaped g g' :
  same_links g g' -> grid_shaped g -> grid_shaped g'.
Proof.
  intros Hs Hg i Hi. rewrite (same_links_length _ _ Hs) in *.
  rewrite (same_links_successors _ _ _ Hs). apply Hg. done.
Qed.

Lemma same_links_trans g1 g2 g3 :
  same_links g1 g2 -> same_links g2 g3 -> same_links g1 g3.
Proof.
  intros [He1 Hn1] [He2 Hn2]. split; [congruence|]. intros i. rewrite Hn2. apply Hn1.
Qed.

Lemma same_links_refl g : same_links g g.
Proof. split; done. Qed.

Lemma set_state_links g i st : same_links g (set_state g i st).
Proof.
  split; [done|]. intros j. rewrite set_state_lookup.
  case_decide; [|done]. destruct (nodes g !! j); done.
Qed.

Lemma step_links g rules :
  rules_wf rules -> length (nodes g) <= HEIGHT * WIDTH -> grid_shaped g ->
  exists g', step g rules = Some g' /\ same_links g g' /\
    forall i, nodes g' !! i = stepped_node g rules i <$> nodes g !! i.
Proof.
  intros Hwf Hlen Hg.
  destruct (step_neighbors_spec g Hg Hlen) as (nb & Hnb & Hnbi).
  destruct (step_update_spec g rules nb Hwf Hg Hnbi) as (g' & Hg' & Hedges & Hnodes).
  exists g'. unfold step. rewrite Hnb. simpl. split; [done|]. split; [|done].
  split; [done|]. intros i. rewrite Hnodes.
  destruct (nodes g !! i) as [nd|]; [|done]. simpl. unfold stepped_node.
  destruct (state nd); done.
Qed.

(** The [Running] loop can go on forever: from a graph shaped like a grid
    (at most 8 successors per node, all of them nodes) of at most
    [HEIGHT * WIDTH] nodes, and a rule table of the shape of
    [[[u16; 9]; 2]], any number of generations succeeds without a panic, keeps
    the edges and the head of each node's edge list, and the graph stays
    shaped like a grid. *)
Theorem step_n_safe g rules k :
  rules_wf rules -> length (nodes g) <= HEIGHT * WIDTH -> grid_shaped g ->
  exists g', step_n k g rules = Some g' /\ same_links g g' /\ grid_shaped g'.
Proof.
  intros Hwf. revert g. induction k as [|k IH]; intros g Hlen Hg.
  - exists g. split; [done|]. split; [apply same_links_refl|done].
  - destruct (step_links g rules Hwf Hlen Hg) as (g1 & Hs1 & Hl1 & _).
    simpl. rewrite Hs1. simpl.
    destruct (IH g1) as (g' & Hk & Hl' & Hg').
    { rewrite (same_links_length _ _ Hl1). done. }
    { apply (same_links_grid_shaped g); done. }
    exists g'. split; [done|]. split; [|done]. apply (same_links_trans _ g1); done.
Qed.

Lemma step_n_safe_witness :
  exists g', step_n 3 c1_grid conway_rules = Some g'.
Proof.
  destruct (step_n_safe c1_grid conway_rules 3) as (g' & Hg' & _).
  - split; [reflexivity|]. repeat constructor.
  - apply Nat.leb_le. vm_compute. reflexivity.
  - apply grid_shapedb_sound. vm_compute. reflexivity.
  - exists g'. exact Hg'.
Defined.

(** Any world [new_world] builds with at most [HEIGHT * WIDTH] cells (the
    size of the [neighbors] array of the [Running] branch) runs for any
    number of generations without a panic, under any rule table of the shape
    of [[[u16; 9]; 2]], and its edges never change. *)
Theorem new_world_runs width height rules k :
  1 <= width -> 1 <= height -> width * height <= HEIGHT * WIDTH ->
  rules_wf rules ->
  exists g g', new_world width height = Some g /\
    step_n k g rules = Some g' /\ edges g' = edges g.
Proof.
  intros Hw Hh Hsz Hwf.
  assert (Hsz' : width * height < 2 ^ 16)
    by (apply (Nat.le_lt_trans _ (HEIGHT * WIDTH)); [done|apply Nat.ltb_lt; vm_compute; reflexivity]).
  destruct (new_world_built width height) as (g & Hg & _ & Hlen); [done|done|done|].
  destruct (step_n_safe g rules k Hwf) as (g' & Hk & [He _] & _).
  { lia. }
  { apply (new_world_grid_shaped width height); done. }
  exists g, g'. split; [done|]. split; done.
Qed.

Lemma new_world_runs_witness :
  exists g g', new_world 3 3 = Some g /\
    step_n 2 g conway_rules = Some g' /\ edges g' = edges g.
Proof.
  apply (new_world_runs 3 3 conway_rules 2).
  - lia.
  - lia.
  - apply Nat.leb_le. vm_compute. reflexivity.
  - split; [reflexivity|]. repeat constructor.
Defined.

(** ** The A button in [GameState::Paused] (main.rs lines 603-609) *)


Lemma CellState_not_not s : CellState_not (CellState_not s) = s.
Proof. by destruct s. Qed.

Lemma set_state_set_state g i st1 st2 :
  set_state (set_state g i st1) i st2 = set_state g i st2.
Proof.
  unfold set_state. simpl. f_equal. apply list_eq. intros j.
  rewrite !list_lookup_alter. repeat case_decide; subst; try done.
  destruct (nodes g !! _); done.
Qed.

Lemma set_state_same g i nd :
  nodes g !! i = Some nd -> set_state g i (state nd) = g.
Proof.
  intros Hnd. destruct g as [ns es]. unfold set_state. simpl in *. f_equal.
  apply list_eq. intros j. rewrite list_lookup_alter. case_decide; [|done].
  subst. rewrite Hnd. destruct nd. done.
Qed.



(** ** The settings graph and the [GameState::Config] frame (main.rs lines
    483-523, 681-703, 719-773) *)

(** The rule cells of the settings graph: [for j in 0..2 { for i in 0..9 {
    add_node(window_x+rules_offset_x+i, window_y+rules_offset_y+j,
    Cell(rules[j][i].into())) }}]. *)
Definition settings_cells (rules : Rules) : option Graph :=
  for_each (seq 0 2)
    (fun g j => for_each (seq 0 9)
       (fun g i =>
          v ← rule_at rules j i;
          Some (fst (add_node g (window_x + rules_offset_x + i)
                       (window_y + rules_offset_y + j) (Cell (CellState_from_u16 v)))))
       g)
    Graph_new.

(** The edges between the rule cells. *)
Definition settings_grid_edges (g : Graph) : option Graph :=
  for_each (seq 0 2)
    (fun g j => for_each (seq 0 9)
       (fun g i =>
          g ← (if decide (i < 8) then
                 g ← add_edge g (j * 9 + i) (j * 9 + i + 1) (Some RIGHT);
                 add_edge g (j * 9 + i + 1) (j * 9 + i) (Some LEFT)
               else Some g);
          if decide (j < 1) then
            g ← add_edge g (j * 9 + i) ((j + 1) * 9 + i) (Some DOWN);
            add_edge g ((j + 1) * 9 + i) (j * 9 + i) (Some UP)
          else Some g)
       g)
    g.

(** [graph_settings] as [main] builds it from the initial rule table. *)
Definition settings_graph (rules : Rules) : option Graph :=
  g ← settings_cells rules;
  g ← settings_grid_edges g;
  let '(g, node_new) := add_node g (window_x + rules_offset_x)
                          (window_y + rules_offset_y + 3) (Menu New) in
  let '(g, node_save) := add_node g (window_x + rules_offset_x)
                           (window_y + rules_offset_y + 4) (Menu Save) in
  let '(g, node_load) := add_node g (window_x + rules_offset_x)
                           (window_y + rules_offset_y + 5) (Menu Load) in
  g ← add_edge g node_new 9 (Some UP);
  g ← add_edge g node_new node_save (Some DOWN);
  g ← add_edge g node_save node_new (Some UP);
  g ← add_edge g node_save node_load (Some DOWN);
  g ← add_edge g node_load node_save (Some UP);
  for_each (seq 9 9) (fun g n => add_edge g n node_new (Some DOWN)) g.

(** The layout of the settings graph: cell [k < 18] shows [rules[k/9][k%9]]
    at column [k%9], row [k/9] of the rule area; then New, Save and Load
    below it. *)
Definition settings_views (rules : Rules) : list (NodeType * nat * nat) :=
  map (fun k => (Cell (CellState_from_u16 (default 0%Z (rule_at rules (k / 9) (k mod 9)))),
                 window_x + rules_offset_x + k mod 9,
                 window_y + rules_offset_y + k / 9)) (seq 0 18) ++
  [(Menu New, window_x + rules_offset_x, window_y + rules_offset_y + 3);
   (Menu Save, window_x + rules_offset_x, window_y + rules_offset_y + 4);
   (Menu Load, window_x + rules_offset_x, window_y + rules_offset_y + 5)].

(** Where the cursor of the settings graph goes: no wrap-around at the
    borders of the rule area, the second row leads down to New, New up to
    the first cell of the second row, and New, Save, Load form a column. *)
Definition settings_move (k : nat) (b : Button) : nat :=
  match b with
  | RIGHT => if decide (k < 18 /\ k mod 9 < 8) then k + 1 else k
  | LEFT => if decide (k < 18 /\ 0 < k mod 9) then k - 1 else k
  | DOWN => if decide (k < 9) then k + 9 else if decide (k < 18) then 18
            else if decide (k < 20) then k + 1 else k
  | UP => if decide (k < 9) then k else if decide (k < 18) then k - 9
          else if decide (k = 18) then 9 else k - 1
  | _ => k
  end.

(** The refresh at the start of every [Config] frame: each [Cell] node takes
    the state [Cell(r.into())] of its entry
    [r = rules[y - window_y - rules_offset_y][x - window_x - rules_offset_x]]
    ([u16] subtractions, array indexing). The tiles are rendering. *)
Definition config_refresh (gs : Graph) (rules : Rules) : option Graph :=
  for_each (seq 0 (length (nodes gs)))
    (fun gs i =>
       n ← nodes gs !! i;
       match state n with
       | Cell _ =>
           dy ← u16_sub (y n) window_y; ry ← u16_sub dy rules_offset_y;
           dx ← u16_sub (x n) window_x; rx ← u16_sub dx rules_offset_x;
           v ← rule_at rules ry rx;
           Some (set_state gs i (Cell (CellState_from_u16 v)))
       | Menu _ => Some gs
       end)
    gs.

(** A node inside the 9x2 rule area. *)
Definition in_rule_area (nd : NodeData) : Prop :=
  window_y + rules_offset_y <= y nd < window_y + rules_offset_y + 2 /\
  window_x + rules_offset_x <= x nd < window_x + rules_offset_x + 9.

(** The row and column of the rule entry of a node. *)
Definition rule_row (nd : NodeData) : nat := y nd - window_y - rules_offset_y.
Definition rule_col (nd : NodeData) : nat := x nd - window_x - rules_offset_x.

Definition refreshed_node (rules : Rules) (nd : NodeData) : NodeData :=
  match state nd with
  | Cell _ =>
      mkNode (Cell (CellState_from_u16 (default 0%Z (rule_at rules (rule_row nd) (rule_col nd)))))
             (x nd) (y nd) (first_outgoing_edge nd)
  | Menu _ => nd
  end.

Lemma in_rule_area_subs nd :
  in_rule_area nd ->
  u16_sub (y nd) window_y = Some (y nd - window_y) /\
  u16_sub (y nd - window_y) rules_offset_y = Some (rule_row nd) /\
  u16_sub (x nd) window_x = Some (x nd - window_x) /\
  u16_sub (x nd - window_x) rules_offset_x = Some (rule_col nd) /\
  rule_row nd < 2 /\ rule_col nd < 9.
Proof.
  unfold in_rule_area, rule_row, rule_col, u16_sub. intros [Hy Hx].
  rewrite !decide_True by lia. repeat split; lia.
Qed.

Lemma in_rule_area_chain {A} nd (k : nat -> nat -> option A) :
  in_rule_area nd ->
  (dy ← u16_sub (y nd) window_y; ry ← u16_sub dy rules_offset_y;
   dx ← u16_sub (x nd) window_x; rx ← u16_sub dx rules_offset_x; k ry rx)
  = k (rule_row nd) (rule_col nd).
Proof.
  intros H. destruct (in_rule_area_subs nd H) as (H1 & H2 & H3 & H4 & _).
  rewrite H1. cbn [mbind option_bind]. rewrite H2. cbn [mbind option_bind].
  rewrite H3. cbn [mbind option_bind]. rewrite H4. done.
Qed.

Lemma rule_set_spec rules r c v0 v :
  rule_at rules r c = Some v0 ->
  exists rules', rule_set rules r c v = Some rules' /\
    rule_at rules' r c = Some v /\
    (forall r' c', (r', c') <> (r, c) -> rule_at rules' r' c' = rule_at rules r' c') /\
    length rules' = length rules /\
    (forall r', length <$> rules' !! r' = length <$> rules !! r').
Proof.
  unfold rule_at, rule_set. intros H.
  destruct (rules !! r) as [row|] eqn:Hrow; simpl in *; [|discriminate].
  rewrite H. simpl. eexists. split; [done|].
  pose proof (lookup_lt_Some _ _ _ Hrow) as Hr.
  pose proof (lookup_lt_Some _ _ _ H) as Hc.
  split; [|split; [|split]].
  - rewrite list_lookup_insert_eq by done. simpl. apply list_lookup_insert_eq. done.
  - intros r' c' Hne. destruct (decide (r' = r)) as [->|Hr'].
    + rewrite list_lookup_insert_eq by done. rewrite Hrow. simpl.
      apply list_lookup_insert_ne. congruence.
    + rewrite list_lookup_insert_ne by congruence. done.
  - apply length_insert.
  - intros r'. destruct (decide (r' = r)) as [->|Hr'].
    + rewrite list_lookup_insert_eq, Hrow by done. simpl. by rewrite length_insert.
    + rewrite list_lookup_insert_ne by congruence. done.
Qed.

Lemma rules_wf_lengths rules rules' :
  rules_wf rules -> length rules' = length rules ->
  (forall r', length <$> rules' !! r' = length <$> rules !! r') -> rules_wf rules'.
Proof.
  intros [Hl Hrows] Hl' Hr. split; [lia|].
  apply Forall_lookup. intros r row Hrow.
  specialize (Hr r). rewrite Hrow in Hr.
  destruct (rules !! r) as [row0|] eqn:H0; simpl in Hr; [|discriminate].
  injection Hr as ->. apply (Forall_lookup_1 _ _ _ _ Hrows H0).
Qed.

Lemma rule_set_id rules r c v :
  rule_at rules r c = Some v -> rule_set rules r c v = Some rules.
Proof.
  unfold rule_at, rule_set. intros H.
  destruct (rules !! r) as [row|] eqn:Hrow; simpl in *; [|discriminate].
  rewrite H. simpl. rewrite (list_insert_id row c v H), list_insert_id by done. done.
Qed.

Lemma settings_graph_explicit rules :
  rules_wf rules ->
  exists gs, settings_graph rules = Some gs /\
    map node_view (nodes gs) = settings_views rules /\
    forall k b, k < 21 -> move_cursor gs k b = Some (settings_move k b).
Proof.
  intros Hwf. destruct (rules_wf_shape rules Hwf) as (row0 & row1 & -> & H0 & H1).
  do 9 (destruct row0 as [|? row0]; simpl in H0; [lia|]).
  destruct row0; simpl in H0; [|lia].
  do 9 (destruct row1 as [|? row1]; simpl in H1; [lia|]).
  destruct row1; simpl in H1; [|lia].
  destruct (settings_graph _) as [gs|] eqn:Hgs; vm_compute in Hgs; [|discriminate Hgs].
  injection Hgs as <-. eexists. split; [reflexivity|]. split.
  - vm_compute. reflexivity.
  - intros k b Hk.
    do 21 (destruct k as [|k]; [destruct b; vm_compute; reflexivity|]). lia.
Qed.

(** For every rule table of the shape of [[[u16; 9]; 2]], [main] builds the
    settings graph without a panic: 21 nodes, the 18 rule cells row by row in
    the rule area, each showing its entry [rules[k/9][k%9]], then New, Save
    and Load in a column below the area. *)
Theorem settings_graph_layout rules :
  rules_wf rules ->
  exists gs, settings_graph rules = Some gs /\
    map node_view (nodes gs) = settings_views rules.
Proof.
  intros Hwf. destruct (settings_graph_explicit rules Hwf) as (gs & Hgs & Hv & _).
  eauto.
Qed.

Lemma settings_graph_layout_witness :
  exists gs, settings_graph conway_rules = Some gs /\
    map node_view (nodes gs) = settings_views conway_rules.
Proof.
  apply settings_graph_layout. split; [reflexivity|]. repeat constructor.
Defined.

(** The cursor of the settings graph: from each of its 21 nodes, each button
    moves it as [settings_move] says, without a panic; so the cursor never
    leaves the graph, the rule area has no wrap-around, and only the second
    row of rules leads down to New. *)
Theorem settings_cursor_moves rules gs k b :
  rules_wf rules -> settings_graph rules = Some gs -> k < 21 ->
  move_cursor gs k b = Some (settings_move k b).
Proof.
  intros Hwf Hgs Hk. destruct (settings_graph_explicit rules Hwf) as (gs' & Hgs' & _ & Hm).
  rewrite Hgs in Hgs'. injection Hgs' as <-. apply Hm. done.
Qed.

Lemma settings_cursor_moves_witness :
  exists gs, settings_graph conway_rules = Some gs /\
    move_cursor gs 13 DOWN = Some 18.
Proof.
  destruct (settings_graph conway_rules) as [gs|] eqn:Hgs; [|vm_compute in Hgs; discriminate Hgs].
  exists gs. split; [reflexivity|].
  apply (settings_cursor_moves conway_rules gs 13 DOWN).
  - split; [reflexivity|]. repeat constructor.
  - exact Hgs.
  - lia.
Defined.

(** The refresh at the start of a [Config] frame, for a graph whose cells all
    lie in the rule area and a rule table of the right shape: it never panics,
    keeps the edges and list heads, leaves the menu nodes alone, and sets each
    cell to [Cell(rules[row][col].into())] for the entry under it. *)
Theorem config_refresh_spec gs rules :
  rules_wf rules ->
  (forall i nd s, nodes gs !! i = Some nd -> state nd = Cell s -> in_rule_area nd) ->
  exists gs', config_refresh gs rules = Some gs' /\ same_links gs gs' /\
    forall i, nodes gs' !! i = refreshed_node rules <$> nodes gs !! i.
Proof.
  intros Hwf Harea. unfold config_refresh.
  assert (forall k, k <= length (nodes gs) ->
    exists gk, for_each (seq 0 k)
      (fun gs0 i =>
         n ← nodes gs0 !! i;
         match state n with
         | Cell _ =>
             dy ← u16_sub (y n) window_y; ry ← u16_sub dy rules_offset_y;
             dx ← u16_sub (x n) window_x; rx ← u16_sub dx rules_offset_x;
             v ← rule_at rules ry rx;
             Some (set_state gs0 i (Cell (CellState_from_u16 v)))
         | Menu _ => Some gs0
         end) gs = Some gk /\
    same_links gs gk /\
    (forall i, k <= i -> nodes gk !! i = nodes gs !! i) /\
    (forall i, i < k -> nodes gk !! i = refreshed_node rules <$> nodes gs !! i)) as Hk.
  { induction k as [|k IH]; intros Hkl.
    - exists gs. split; [done|]. split; [apply same_links_refl|]. split; [done|]. lia.
    - destruct IH as (gk & Hgk & Hl & Hrest & Hdone); [lia|].
      rewrite seq_S, for_each_app, Hgk. simpl.
      rewrite Hrest by lia.
      destruct (lookup_lt_is_Some_2 (nodes gs) k) as [nd Hnd]; [lia|].
      rewrite Hnd. simpl.
      destruct (state nd) as [s|m] eqn:Hs.
      + destruct (in_rule_area_subs nd (Harea k nd s Hnd Hs)) as (_ & _ & _ & _ & Hr & Hc).
        rewrite (in_rule_area_chain nd _ (Harea k nd s Hnd Hs)).
        destruct (rule_at_wf rules (rule_row nd) (rule_col nd) Hwf Hr Hc) as [v Hv].
        rewrite Hv. simpl.
        eexists. split; [done|]. split; [|split].
        * apply (same_links_trans _ gk); [done|apply set_state_links].
        * intros i Hi. rewrite set_state_lookup, decide_False by lia. apply Hrest. lia.
        * intros i Hi. rewrite set_state_lookup. case_decide as Hki.
          -- subst i. rewrite Hrest, Hnd by lia. simpl.
             unfold refreshed_node. rewrite Hs, Hv. done.
          -- apply Hdone. lia.
      + eexists. split; [done|]. split; [done|]. split.
        * intros i Hi. apply Hrest. lia.
        * intros i Hi. destruct (decide (i = k)) as [->|Hne].
          -- rewrite Hrest, Hnd by lia. simpl. unfold refreshed_node. rewrite Hs. done.
          -- apply Hdone. lia. }
  destruct (Hk (length (nodes gs))) as (gs' & Hgs' & Hl & Hrest & Hdone); [done|].
  exists gs'. split; [done|]. split; [done|].
  intros i. destruct (decide (i < length (nodes gs))) as [Hi|Hi]; [by apply Hdone|].
  rewrite Hrest by lia. rewrite (proj2 (lookup_ge_None (nodes gs) _)) by lia. done.
Qed.

(** A decision procedure for the hypothesis on the cells. *)
Definition cells_in_areab (gs : Graph) : bool :=
  forallb (fun nd => match state nd with
                     | Cell _ => bool_decide (in_rule_area nd)
                     | Menu _ => true
                     end) (nodes gs).

#[global] Instance in_rule_area_dec nd : Decision (in_rule_area nd).
Proof. unfold in_rule_area. apply _. Defined.

Lemma cells_in_areab_sound gs :
  cells_in_areab gs = true ->
  forall i nd s, nodes gs !! i = Some nd -> state nd = Cell s -> in_rule_area nd.
Proof.
  unfold cells_in_areab. rewrite forallb_forall. intros H i nd s Hnd Hs.
  specialize (H nd (proj1 (list_elem_of_In _ _) (list_elem_of_lookup_2 _ _ _ Hnd))).
  rewrite Hs in H. apply bool_decide_eq_true in H. done.
Qed.

Lemma config_refresh_spec_witness :
  exists gs gs', settings_graph conway_rules = Some gs /\
    config_refresh gs [[1;1;1;1;1;1;1;1;1]; [0;0;0;0;0;0;0;0;0]]%Z = Some gs' /\
    same_links gs gs'.
Proof.
  destruct (settings_graph conway_rules) as [gs|] eqn:Hgs; [|vm_compute in Hgs; discriminate Hgs].
  destruct (config_refresh_spec gs [[1;1;1;1;1;1;1;1;1]; [0;0;0;0;0;0;0;0;0]]%Z)
    as (gs' & H1 & H2 & _).
  - split; [reflexivity|]. repeat constructor.
  - apply cells_in_areab_sound. pose proof Hgs as Hgs'. vm_compute in Hgs'.
    injection Hgs' as <-. vm_compute. reflexivity.
  - exists gs, gs'. split; [reflexivity|]. split; [exact H1|exact H2].
Defined.

Lemma rule_set_set rules r c v1 v2 rules1 :
  rule_set rules r c v1 = Some rules1 -> rule_set rules1 r c v2 = rule_set rules r c v2.
Proof.
  unfold rule_set. intros H.
  destruct (rules !! r) as [row|] eqn:Hrow; simpl in *; [|discriminate].
  destruct (row !! c) as [v0|] eqn:Hc; simpl in *; [|discriminate].
  injection H as <-.
  pose proof (lookup_lt_Some _ _ _ Hrow) as Hr.
  pose proof (lookup_lt_Some _ _ _ Hc) as Hcl.
  rewrite list_lookup_insert_eq by done. simpl.
  rewrite list_lookup_insert_eq by done. simpl.
  rewrite list_insert_insert_eq, list_insert_insert_eq. done.
Qed.

(** Pressing A on a rule cell of the settings graph (a cell node in the rule
    area) with a rule table of the right shape: the node's state is negated,
    its rule entry [v] becomes [0] if [v <> 0] and [1] otherwise, nothing else
    changes (SRAM, world, other entries). A second press restores the graph,
    and restores the table exactly when [v] was [0] or [1]. *)
Theorem config_toggle_twice gs k w nd s :
  nodes gs !! k = Some nd -> state nd = Cell s -> in_rule_area nd ->
  rules_wf (rules w) ->
  exists v gs1 w1 w2,
    rule_at (rules w) (rule_row nd) (rule_col nd) = Some v /\
    config_press_a gs k w = Some (gs1, w1) /\
    gs1 = set_state gs k (Cell (CellState_not s)) /\
    sram w1 = sram w /\ world w1 = world w /\
    rule_at (rules w1) (rule_row nd) (rule_col nd) =
      Some (if decide (v <> 0%Z) then 0%Z else 1%Z) /\
    (forall r c, (r, c) <> (rule_row nd, rule_col nd) ->
       rule_at (rules w1) r c = rule_at (rules w) r c) /\
    config_press_a gs1 k w1 = Some (gs, w2) /\
    sram w2 = sram w /\ world w2 = world w /\
    (v = 0%Z \/ v = 1%Z -> w2 = w).
Proof.
  intros Hnd Hs Harea Hwf.
  destruct (in_rule_area_subs nd Harea) as (_ & _ & _ & _ & Hr & Hc).
  destruct (rule_at_wf _ _ _ Hwf Hr Hc) as [v Hv].
  set (v1 := if decide (v <> 0%Z) then 0%Z else 1%Z).
  destruct (rule_set_spec (rules w) (rule_row nd) (rule_col nd) v v1 Hv)
    as (rules1 & Hset1 & Hv1 & Hother & _).
  set (v2 := if decide (v1 <> 0%Z) then 0%Z else 1%Z).
  set (nd1 := mkNode (Cell (CellState_not s)) (x nd) (y nd) (first_outgoing_edge nd)).
  assert (Hnd1 : nodes (set_state gs k (Cell (CellState_not s))) !! k = Some nd1).
  { rewrite set_state_lookup, decide_True, Hnd by done. done. }
  assert (Harea1 : in_rule_area nd1) by exact Harea.
  exists v, (set_state gs k (Cell (CellState_not s))), (set_rules rules1 w).
  exists (set_rules (default rules1 (rule_set rules1 (rule_row nd) (rule_col nd) v2))
            (set_rules rules1 w)).
  split; [done|]. split.
  { unfold config_press_a. rewrite Hnd. cbn [mbind option_bind]. rewrite Hs.
    cbv beta iota zeta. rewrite (in_rule_area_chain nd _ Harea), Hv.
    cbn [mbind option_bind]. fold v1. rewrite Hset1. done. }
  split; [done|]. split; [done|]. split; [done|]. split; [done|].
  split; [exact Hother|].
  destruct (rule_set_spec rules1 (rule_row nd) (rule_col nd) v1 v2 Hv1)
    as (rules2 & Hset2 & _).
  split.
  { unfold config_press_a. rewrite Hnd1. cbn [mbind option_bind]. unfold nd1 at 1.
    cbn [state]. cbv beta iota zeta. rewrite (in_rule_area_chain nd1 _ Harea1).
    change (rule_row nd1) with (rule_row nd). change (rule_col nd1) with (rule_col nd).
    cbn [set_rules rules]. rewrite Hv1. cbn [mbind option_bind]. fold v2.
    rewrite Hset2. cbn [default].
    rewrite CellState_not_not, set_state_set_state, <- Hs, (set_state_same _ _ nd Hnd).
    done. }
  split; [done|]. split; [done|].
  intros Hv01. rewrite Hset2. cbn [default].
  rewrite (rule_set_set _ _ _ _ _ _ Hset1) in Hset2.
  assert (v2 = v) as Hv2 by (unfold v2, v1; destruct Hv01 as [->| ->]; done).
  rewrite Hv2, (rule_set_id _ _ _ _ Hv) in Hset2. injection Hset2 as <-.
  destruct w. done.
Qed.

Lemma config_toggle_twice_witness :
  exists gs gs1 w1 w2, settings_graph conway_rules = Some gs /\
    config_press_a gs 3 c2_world = Some (gs1, w1) /\
    config_press_a gs1 3 w1 = Some (gs, w2) /\ w2 = c2_world.
Proof.
  destruct (settings_graph conway_rules) as [gs|] eqn:Hgs; [|vm_compute in Hgs; discriminate Hgs].
  assert (Hnd : nodes gs !! 3 = Some (mkNode (Cell Live) 13 5 (Some 14))).
  { pose proof Hgs as Hgs'. vm_compute in Hgs'. injection Hgs' as <-. reflexivity. }
  destruct (config_toggle_twice gs 3 c2_world (mkNode (Cell Live) 13 5 (Some 14)) Live)
    as (v & gs1 & w1 & w2 & Hv & H1 & _ & _ & _ & _ & _ & H2 & _ & _ & Hw).
  - exact Hnd.
  - reflexivity.
  - unfold in_rule_area. vm_compute. lia.
  - split; [reflexivity|]. repeat constructor.
  - exists gs, gs1, w1, w2. split; [reflexivity|]. split; [exact H1|].
    split; [exact H2|]. apply Hw. vm_compute in Hv. injection Hv as <-. right. reflexivity.
Defined.

(** ** What [save_world] and [load_world] leave alone, and when they fail *)

Section Preserve.
Variable P : World -> World -> Prop.
Hypothesis P_refl : forall w, P w w.
Hypothesis P_trans : forall w1 w2 w3, P w1 w2 -> P w2 w3 -> P w1 w3.

(** Every run of [m], whatever its outcome, relates its start and end by [P]. *)
Definition preserves {R} (m : SM R) : Prop :=
  forall w w' r, m w = Some (w', r) -> P w w'.

Lemma preserves_ret {R} (v : R) : preserves (sm_ret v).
Proof. intros w w' r H. injection H as <- _. apply P_refl. Qed.

Lemma preserves_get : preserves sm_get.
Proof. intros w w' r H. injection H as <- _. apply P_refl. Qed.

Lemma preserves_lift {R} (o : option R) : preserves (sm_lift o).
Proof.
  intros w w' r H. unfold sm_lift in H. destruct o; [|discriminate].
  injection H as <- _. apply P_refl.
Qed.

Lemma preserves_read off : preserves (sram_read off).
Proof.
  intros w w' r H. unfold sram_read in H.
  destruct (sram w !! off); injection H as <- _; apply P_refl.
Qed.

Lemma preserves_bind {R S} (m : SM R) (k : R -> SM S) :
  preserves m -> (forall v, preserves (k v)) -> preserves (sm_bind m k).
Proof.
  intros Hm Hk w w' r H. unfold sm_bind in H.
  destruct (m w) as [[w1 [v|e]]|] eqn:H1; [| |discriminate].
  - apply (P_trans _ w1); [apply (Hm _ _ _ H1)|apply (Hk v _ _ _ H)].
  - injection H as <- _. apply (Hm _ _ _ H1).
Qed.

Lemma preserves_for {B} (l : list B) (body : B -> SM unit) :
  (forall b, preserves (body b)) -> preserves (sm_for l body).
Proof.
  intros Hb. induction l as [|b l IH]; simpl.
  - apply preserves_ret.
  - apply preserves_bind; [apply Hb|intros _; apply IH].
Qed.
End Preserve.

Ltac preserves_auto P Hr Ht :=
  repeat first
    [ apply (preserves_bind P Ht); [|intros ?]
    | apply (preserves_for P Hr Ht); intros ?
    | apply (preserves_ret P Hr)
    | apply (preserves_get P Hr)
    | apply (preserves_lift P Hr)
    | apply (preserves_read P Hr)
    | case_decide ].

(** [load_world] never writes to the SRAM, whatever its outcome. *)
Theorem load_world_frame w w' r :
  load_world w = Some (w', r) -> sram w' = sram w.
Proof.
  set (P := fun w w' : World => sram w' = sram w).
  assert (Hr : forall w, P w w) by (intros; done).
  assert (Ht : forall w1 w2 w3, P w1 w2 -> P w2 w3 -> P w1 w3)
    by (unfold P; intros; congruence).
  assert (Hm : forall f, (forall w, sram (f w) = sram w) -> preserves P (sm_modify f)).
  { intros f Hf w0 w1 r0 H. injection H as <- _. apply Hf. }
  revert w w' r. change (preserves P load_world). unfold load_world.
  preserves_auto P Hr Ht; apply Hm; done.
Qed.

Lemma load_world_frame_witness :
  exists w' r, load_world c4_world = Some (w', r) /\ sram w' = sram c4_world.
Proof.
  destruct (load_world c4_world) as [[w' r]|] eqn:H; [|vm_compute in H; discriminate H].
  exists w', r. split; [reflexivity|]. apply (load_world_frame c4_world w' r H).
Defined.

Lemma rule_set_wf rules r c v :
  rules_wf rules -> r < 2 -> c < 9 ->
  exists rules', rule_set rules r c v = Some rules' /\ rules_wf rules'.
Proof.
  intros Hwf Hr Hc. destruct (rule_at_wf rules r c Hwf Hr Hc) as [v0 Hv0].
  destruct (rule_set_spec rules r c v0 v Hv0) as (rules' & Hs & _ & _ & Hl & Hrow).
  exists rules'. split; [done|]. apply (rules_wf_lengths rules); done.
Qed.

(** ** Saving then loading *)

Lemma as_u8_small v : (0 <= v < 256)%Z -> as_u8 v = v.
Proof.
  intros Hv. unfold as_u8. change 255%Z with (Z.ones 8).
  rewrite Z.land_ones by lia. apply Z.mod_small. lia.
Qed.

Lemma decode_cell_marker s : decode_cell (cell_marker (Cell s)) = Cell s.
Proof. by destruct s. Qed.

Lemma graph_eq g1 g2 : nodes g1 = nodes g2 -> edges g1 = edges g2 -> g1 = g2.
Proof. destruct g1, g2. simpl. intros -> ->. done. Qed.

Lemma save_image_length w row0 row1 :
  length (nodes (world w)) + length row0 + length row1 <= length (sram w) ->
  length (save_image w row0 row1) = length (sram w).
Proof.
  intros H. unfold save_image. rewrite !length_app, !length_map, length_drop. lia.
Qed.

Lemma save_image_cell w row0 row1 p nd :
  nodes (world w) !! p = Some nd ->
  save_image w row0 row1 !! p = Some (cell_marker (state nd)).
Proof.
  intros Hnd. pose proof (lookup_lt_Some _ _ _ Hnd) as Hp. unfold save_image.
  rewrite lookup_app_l by (rewrite length_map; done).
  rewrite list_lookup_fmap, Hnd. done.
Qed.

Lemma save_image_row0 w row0 row1 c :
  c < length row0 ->
  save_image w row0 row1 !! (length (nodes (world w)) + c) = as_u8 <$> row0 !! c.
Proof.
  intros Hc. unfold save_image.
  rewrite lookup_app_r by (rewrite length_map; lia). rewrite length_map.
  rewrite lookup_app_l by (rewrite length_map; lia).
  rewrite list_lookup_fmap. f_equal. f_equal. lia.
Qed.

Lemma save_image_row1 w row0 row1 c :
  c < length row1 ->
  save_image w row0 row1 !! (length (nodes (world w)) + length row0 + c) =
  as_u8 <$> row1 !! c.
Proof.
  intros Hc. unfold save_image.
  rewrite lookup_app_r by (rewrite length_map; lia). rewrite length_map.
  rewrite lookup_app_r by (rewrite length_map; lia). rewrite length_map.
  rewrite lookup_app_l by (rewrite length_map; lia).
  rewrite list_lookup_fmap. f_equal. f_equal. lia.
Qed.

Lemma row_restored (row row' : list Z) (bytes : list Z) off :
  Forall (fun v => (0 <= v < 256)%Z) row -> length row' = length row ->
  (forall c, c < length row -> row' !! c = bytes !! (off + c)) ->
  (forall c, c < length row -> bytes !! (off + c) = as_u8 <$> row !! c) ->
  row' = row.
Proof.
  intros Hrange Hlen H1 H2. apply list_eq. intros c.
  destruct (decide (c < length row)) as [Hc|Hc].
  - rewrite H1, H2 by done.
    destruct (lookup_lt_is_Some_2 row c Hc) as [v Hv]. rewrite Hv. simpl.
    rewrite as_u8_small; [done|]. apply (Forall_lookup_1 _ _ _ _ Hrange Hv).
  - rewrite !(proj2 (lookup_ge_None _ _)) by lia. done.
Qed.

(** Decision procedures for the hypotheses on the nodes and the entries. *)
Definition all_cellsb (g : Graph) : bool :=
  forallb (fun nd => match state nd with Cell _ => true | Menu _ => false end) (nodes g).

Lemma all_cellsb_sound g :
  all_cellsb g = true ->
  forall i nd, nodes g !! i = Some nd -> exists s, state nd = Cell s.
Proof.
  unfold all_cellsb. rewrite forallb_forall. intros H i nd Hnd.
  specialize (H nd (proj1 (list_elem_of_In _ _) (list_elem_of_lookup_2 _ _ _ Hnd))).
  destruct (state nd); [eauto|discriminate].
Qed.

Definition bytes_ok (rules : Rules) : bool :=
  forallb (forallb (fun v => (0 <=? v)%Z && (v <? 256)%Z)) rules.

Lemma bytes_ok_sound rules :
  bytes_ok rules = true -> Forall (Forall (fun v => (0 <= v < 256)%Z)) rules.
Proof.
  unfold bytes_ok. rewrite forallb_forall. intros H.
  apply Forall_forall. intros row Hrow.
  specialize (H row (proj1 (list_elem_of_In _ _) Hrow)). rewrite forallb_forall in H.
  apply Forall_forall. intros v Hv.
  specialize (H v (proj1 (list_elem_of_In _ _) Hv)).
  apply andb_prop in H as [H1 H2]. apply Z.leb_le in H1. apply Z.ltb_lt in H2. lia.
Qed.

(** Saving then loading restores everything: when byte 0 of the SRAM is
    nonzero, the SRAM holds the whole save, every node of the world is a cell
    and every rule entry fits in a byte, [save_world] succeeds and a
    following [load_world] succeeds and changes nothing, neither the world
    nor the rule table nor the SRAM. *)
Theorem save_load_roundtrip w b0 :
  sram w !! 0 = Some b0 -> b0 <> 0%Z -> rules_wf (rules w) ->
  length (nodes (world w)) + 18 <= length (sram w) ->
  (forall i nd, nodes (world w) !! i = Some nd -> exists s, state nd = Cell s) ->
  Forall (Forall (fun v => (0 <= v < 256)%Z)) (rules w) ->
  exists w1, save_world w = Some (w1, inl tt) /\
    world w1 = world w /\ rules w1 = rules w /\
    load_world w1 = Some (w1, inl tt).
Proof.
  intros H0 Hb0 Hwf Hlen Hcells Hrange.
  destruct (rules_wf_shape _ Hwf) as (row0 & row1 & Hrules & Hl0 & Hl1).
  rewrite Hrules in Hrange. apply Forall_cons in Hrange as [Hr0 Hrange].
  apply Forall_cons in Hrange as [Hr1 _].
  set (N := length (nodes (world w))) in *.
  rewrite (save_world_spec w b0 row0 row1) by (try done; lia).
  set (w1 := mkWorld (save_image w row0 row1) (world w) (rules w)).
  exists w1. split; [done|]. split; [done|]. split; [done|].
  assert (Hlen1 : length (sram w1) = length (sram w))
    by (apply save_image_length; lia).
  destruct (lookup_lt_is_Some_2 (sram w1) 0) as [b1 Hb1]; [lia|].
  destruct (decide (b1 = 0%Z)) as [->|Hb1'].
  { unfold load_world. rewrite (sm_bind_read _ _ 0 0%Z Hb1). done. }
  destruct (load_world_spec w1 b1 row0 row1) as
    (g' & row0' & row1' & Hload & Hedges & Hnodes & Hl0' & Hl1' & Hrows);
    [done|done|exact Hrules|lia|rewrite Hlen1; unfold w1; cbn [world]; lia|].
  rewrite Hload. unfold w1 in Hedges, Hnodes, Hrows.
  cbn [world sram] in Hedges, Hnodes, Hrows. do 2 f_equal. unfold w1. f_equal.
  - apply graph_eq; [|done].
    apply list_eq. intros p. rewrite Hnodes. cbn [world sram].
    destruct (nodes (world w) !! p) as [nd|] eqn:Hnd; [|done]. simpl.
    unfold loaded_node. rewrite (save_image_cell _ _ _ _ _ Hnd). simpl.
    destruct (Hcells p nd Hnd) as [s Hs]. rewrite Hs, decode_cell_marker.
    destruct nd. simpl in Hs. subst. done.
  - rewrite Hrules. f_equal; [|f_equal].
    + apply (row_restored row0 row0' (sram w1) N); [done|lia| |].
      * intros c Hc. apply (Hrows c Hc).
      * intros c Hc. apply save_image_row0. done.
    + apply (row_restored row1 row1' (sram w1) (N + length row0)); [done|lia| |].
      * intros c Hc. apply (Hrows c). lia.
      * intros c Hc. apply save_image_row1. done.
Qed.

Lemma save_load_roundtrip_witness :
  exists w1, save_world c4_world = Some (w1, inl tt) /\
    world w1 = world c4_world /\ rules w1 = rules c4_world /\
    load_world w1 = Some (w1, inl tt).
Proof.
  apply (save_load_roundtrip c4_world 1%Z).
  - reflexivity.
  - lia.
  - split; [reflexivity|]. repeat constructor.
  - apply Nat.leb_le. vm_compute. reflexivity.
  - apply all_cellsb_sound. vm_compute. reflexivity.
  - apply bytes_ok_sound. vm_compute. reflexivity.
Defined.

(** ** When [save_world] and [load_world] return [Err] *)

Lemma sm_bind_result {R S} (m : SM R) (k : R -> SM S) w w1 r1 :
  m w = Some (w1, r1) ->
  sm_bind m k w = match r1 with inl v => k v w1 | inr e => Some (w1, inr e) end.
Proof. intros H. unfold sm_bind. rewrite H. destruct r1; done. Qed.

(** A loop whose step [k] accesses the SRAM at [off + k]: it stops with
    [Err(OutOfBounds)] at the first offset past the end. *)
Lemma sm_for_offsets (I : World -> Prop) (body : nat -> SM unit) (off kmax : nat) :
  (forall w k, I w -> k < kmax -> off + k < length (sram w) ->
     exists w', body k w = Some (w', inl tt) /\ I w' /\ length (sram w') = length (sram w)) ->
  (forall w k, I w -> k < kmax -> length (sram w) <= off + k ->
     exists w', body k w = Some (w', inr OutOfBounds) /\ I w' /\
                length (sram w') = length (sram w)) ->
  forall m s w, I w -> s + m <= kmax ->
  exists w' r, sm_for (seq s m) body w = Some (w', r) /\ I w' /\
    length (sram w') = length (sram w) /\
    (r = inl tt \/ r = inr OutOfBounds) /\
    (r = inl tt <-> m = 0 \/ off + s + m <= length (sram w)).
Proof.
  intros Hok Herr m. induction m as [|m IH]; intros s w Hw Hs.
  - exists w, (inl tt). split; [done|]. split; [done|]. split; [done|].
    split; [left; done|]. split; [intros _; left; done|done].
  - cbn [seq sm_for]. destruct (decide (off + s < length (sram w))) as [Hlt|Hge].
    + destruct (Hok w s Hw ltac:(lia) Hlt) as (w1 & H1 & Hw1 & Hl1).
      rewrite (sm_bind_ok _ _ _ _ _ H1).
      destruct (IH (S s) w1 Hw1 ltac:(lia)) as (w' & r & Hr & Hw' & Hl' & Hor & Hiff).
      exists w', r. split; [done|]. split; [done|]. split; [lia|]. split; [done|].
      rewrite Hiff, Hl1. lia.
    + destruct (Herr w s Hw ltac:(lia) ltac:(lia)) as (w1 & H1 & Hw1 & Hl1).
      rewrite (sm_bind_result _ _ _ _ _ H1).
      exists w1, (inr OutOfBounds). split; [done|]. split; [done|]. split; [done|].
      split; [right; done|]. split; [discriminate|lia].
Qed.

Lemma write_body_offsets {A} (l : list A) (h : A -> Z) (off : nat) (body : nat -> SM unit) :
  (forall k w, body k w = (v <-? sm_lift (l !! k) ;; sram_write (off + k) (h v)) w) ->
  (forall w k, True -> k < length l -> off + k < length (sram w) ->
     exists w', body k w = Some (w', inl tt) /\ True /\ length (sram w') = length (sram w)) /\
  (forall w k, True -> k < length l -> length (sram w) <= off + k ->
     exists w', body k w = Some (w', inr OutOfBounds) /\ True /\
                length (sram w') = length (sram w)).
Proof.
  intros Hbody. split; intros w k _ Hk Hoff;
    destruct (lookup_lt_is_Some_2 l k Hk) as [v Hv];
    rewrite Hbody, (sm_bind_lift _ v) by done; unfold sram_write.
  - rewrite decide_True by done. eexists. split; [done|]. split; [done|].
    simpl. apply length_insert.
  - rewrite decide_False by lia. eexists. split; [done|]. done.
Qed.

(** With a rule table of the shape of [[[u16; 9]; 2]], [save_world] returns
    [Ok] exactly when the SRAM has a byte 0 and either that byte is [0] (no
    save is written) or the SRAM holds the [nodes + 18] bytes of the save;
    otherwise it returns [Err(OutOfBounds)] (after writing what fits). *)
Theorem save_world_result w :
  rules_wf (rules w) ->
  exists w' r, save_world w = Some (w', r) /\ (r = inl tt \/ r = inr OutOfBounds) /\
    (r = inl tt <-> exists b0, sram w !! 0 = Some b0 /\
       (b0 = 0%Z \/ length (nodes (world w)) + 18 <= length (sram w))).
Proof.
  intros Hwf. destruct (rules_wf_shape _ Hwf) as (row0 & row1 & Hrules & Hl0 & Hl1).
  set (N := length (nodes (world w))).
  destruct (sram w !! 0) as [b0|] eqn:H0.
  2:{ exists w, (inr OutOfBounds). unfold save_world, sm_bind, sram_read. rewrite H0.
      split; [done|]. split; [right; done|]. split; [discriminate|].
      intros (b & Hb & _). discriminate. }
  unfold save_world. rewrite (sm_bind_read _ _ 0 b0 H0). cbv beta.
  destruct (decide (b0 <> 0%Z)) as [Hb0|Hb0].
  2:{ exists w, (inl tt). split; [done|]. split; [left; done|].
      split; [intros _; exists b0; split; [done|left; lia]|done]. }
  rewrite sm_bind_get. cbv beta zeta.
  match goal with |- context [sm_bind (sm_for (seq 0 _) ?body) _ w] =>
    destruct (write_body_offsets (nodes (world w)) (fun nd => cell_marker (state nd)) 0 body
                ltac:(intros; reflexivity)) as [Hok1 Herr1];
    destruct (sm_for_offsets (fun _ => True) body 0 N Hok1 Herr1 N 0 w I ltac:(lia))
      as (w1 & r1 & Hr1 & _ & Hlen1 & Hor1 & Hiff1) end.
  rewrite (sm_bind_result _ _ _ _ _ Hr1).
  destruct r1 as [[]|e1].
  2:{ exists w1, (inr e1). split; [done|].
      assert (inr e1 <> @inl unit SaveError tt) as Hne by discriminate.
      rewrite Hiff1 in Hne. split.
      - destruct Hor1 as [Hr|Hr]; [discriminate|right; done].
      - split; [discriminate|]. intros (b & Hb & [Hb'|Hb']); [congruence|].
        unfold N in Hne. lia. }
  assert (HN : N <= length (sram w)) by (destruct (proj1 Hiff1 eq_refl); lia).
  rewrite (sm_bind_lift _ row0) by (rewrite Hrules; done). cbv beta zeta.
  match goal with |- context [sm_bind (sm_for (seq 0 _) ?body) _ w1] =>
    destruct (write_body_offsets row0 as_u8 N body ltac:(intros; reflexivity))
      as [Hok2 Herr2];
    destruct (sm_for_offsets (fun _ => True) body N (length row0) Hok2 Herr2
                (length row0) 0 w1 I ltac:(lia))
      as (w2 & r2 & Hr2 & _ & Hlen2 & Hor2 & Hiff2) end.
  rewrite (sm_bind_result _ _ _ _ _ Hr2).
  destruct r2 as [[]|e2].
  2:{ exists w2, (inr e2). split; [done|]. split; [done|].
      assert (inr e2 <> @inl unit SaveError tt) as Hne by discriminate.
      rewrite Hiff2 in Hne. split; [discriminate|].
      intros (b & Hb & [Hb'|Hb']); [congruence|]. unfold N in *. lia. }
  assert (HN2 : N + length row0 <= length (sram w))
    by (destruct (proj1 Hiff2 eq_refl); lia).
  rewrite (sm_bind_lift _ row1) by (rewrite Hrules; done). cbv beta zeta.
  match goal with |- context [sm_for (seq 0 _) ?body w2] =>
    destruct (write_body_offsets row1 as_u8 (N + length row0) body ltac:(intros; reflexivity))
      as [Hok3 Herr3];
    destruct (sm_for_offsets (fun _ => True) body (N + length row0) (length row1) Hok3 Herr3
                (length row1) 0 w2 I ltac:(lia))
      as (w3 & r3 & Hr3 & _ & Hlen3 & Hor3 & Hiff3) end.
  exists w3, r3. split; [done|]. split; [done|]. rewrite Hiff3. unfold N in *.
  split.
  - intros Hc. exists b0. split; [done|]. right. lia.
  - intros (b & Hb & [Hb'|Hb']); [congruence|]. right. lia.
Qed.

Lemma load_cells_offsets (body : nat -> SM unit) kmax :
  (forall k w, body k w =
     (b <-? sram_read k ;; sm_modify (set_world_state k (decode_cell b))) w) ->
  (forall w k, rules_wf (rules w) -> k < kmax -> 0 + k < length (sram w) ->
     exists w', body k w = Some (w', inl tt) /\ rules_wf (rules w') /\
                length (sram w') = length (sram w)) /\
  (forall w k, rules_wf (rules w) -> k < kmax -> length (sram w) <= 0 + k ->
     exists w', body k w = Some (w', inr OutOfBounds) /\ rules_wf (rules w') /\
                length (sram w') = length (sram w)).
Proof.
  intros Hbody. split; intros w k Hw _ Hoff; rewrite Hbody.
  - destruct (lookup_lt_is_Some_2 (sram w) k) as [b Hb]; [lia|].
    rewrite (sm_bind_read _ _ _ b Hb). eexists. split; [done|]. done.
  - unfold sm_bind, sram_read. rewrite (proj2 (lookup_ge_None _ _)) by lia.
    eexists. split; [done|]. done.
Qed.

Lemma load_row_offsets (r off : nat) (body : nat -> SM unit) :
  (forall k w, body k w =
     (b <-? sram_read (off + k) ;;
      w' <-? sm_get ;;
      rr <-? sm_lift (rule_set (rules w') r k b) ;;
      sm_modify (set_rules rr)) w) ->
  r < 2 ->
  (forall w k, rules_wf (rules w) -> k < 9 -> off + k < length (sram w) ->
     exists w', body k w = Some (w', inl tt) /\ rules_wf (rules w') /\
                length (sram w') = length (sram w)) /\
  (forall w k, rules_wf (rules w) -> k < 9 -> length (sram w) <= off + k ->
     exists w', body k w = Some (w', inr OutOfBounds) /\ rules_wf (rules w') /\
                length (sram w') = length (sram w)).
Proof.
  intros Hbody Hr. split; intros w k Hw Hk Hoff; rewrite Hbody.
  - destruct (lookup_lt_is_Some_2 (sram w) (off + k)) as [b Hb]; [lia|].
    rewrite (sm_bind_read _ _ _ b Hb), sm_bind_get.
    destruct (rule_set_wf (rules w) r k b Hw Hr Hk) as (rr & Hrr & Hwf').
    rewrite (sm_bind_lift _ rr) by done. eexists. split; [done|]. done.
  - unfold sm_bind at 1, sram_read. rewrite (proj2 (lookup_ge_None _ _)) by lia.
    eexists. split; [done|]. done.
Qed.

(** With a rule table of the shape of [[[u16; 9]; 2]], [load_world] returns
    [Ok] exactly when the SRAM has a byte 0 and either that byte is [0]
    (nothing is loaded) or the SRAM holds the [nodes + 18] bytes of a save;
    otherwise it returns [Err(OutOfBounds)] (after loading what it could
    read). The rule table keeps its shape either way. *)
Theorem load_world_result w :
  rules_wf (rules w) ->
  exists w' r, load_world w = Some (w', r) /\ rules_wf (rules w') /\
    (r = inl tt \/ r = inr OutOfBounds) /\
    (r = inl tt <-> exists b0, sram w !! 0 = Some b0 /\
       (b0 = 0%Z \/ length (nodes (world w)) + 18 <= length (sram w))).
Proof.
  intros Hwf. destruct (rules_wf_shape _ Hwf) as (row0 & row1 & Hrules & Hl0 & Hl1).
  set (N := length (nodes (world w))).
  destruct (sram w !! 0) as [b0|] eqn:H0.
  2:{ exists w, (inr OutOfBounds). unfold load_world, sm_bind, sram_read. rewrite H0.
      split; [done|]. split; [done|]. split; [right; done|]. split; [discriminate|].
      intros (b & Hb & _). discriminate. }
  unfold load_world. rewrite (sm_bind_read _ _ 0 b0 H0). cbv beta.
  destruct (decide (b0 <> 0%Z)) as [Hb0|Hb0].
  2:{ exists w, (inl tt). split; [done|]. split; [done|]. split; [left; done|].
      split; [intros _; exists b0; split; [done|left; lia]|done]. }
  rewrite sm_bind_get. cbv beta zeta.
  match goal with |- context [sm_bind (sm_for (seq 0 _) ?body) _ w] =>
    destruct (load_cells_offsets body N ltac:(intros; reflexivity)) as [Hok1 Herr1];
    destruct (sm_for_offsets (fun w => rules_wf (rules w)) body 0 N Hok1 Herr1 N 0 w Hwf
                ltac:(lia))
      as (w1 & r1 & Hr1 & Hw1 & Hlen1 & Hor1 & Hiff1) end.
  rewrite (sm_bind_result _ _ _ _ _ Hr1).
  destruct r1 as [[]|e1].
  2:{ exists w1, (inr e1). split; [done|]. split; [done|].
      assert (inr e1 <> @inl unit SaveError tt) as Hne by discriminate.
      rewrite Hiff1 in Hne. split.
      - destruct Hor1 as [Hr|Hr]; [discriminate|right; done].
      - split; [discriminate|]. intros (b & Hb & [Hb'|Hb']); [congruence|].
        unfold N in Hne. lia. }
  assert (HN : N <= length (sram w)) by (destruct (proj1 Hiff1 eq_refl); lia).
  rewrite (sm_bind_lift _ row0) by (rewrite Hrules; done). cbv beta zeta.
  match goal with |- context [sm_bind (sm_for (seq 0 _) ?body) _ w1] =>
    destruct (load_row_offsets 0 N body ltac:(intros; reflexivity) ltac:(lia))
      as [Hok2 Herr2];
    destruct (sm_for_offsets (fun w => rules_wf (rules w)) body N 9 Hok2 Herr2
                (length row0) 0 w1 Hw1 ltac:(lia))
      as (w2 & r2 & Hr2 & Hw2 & Hlen2 & Hor2 & Hiff2) end.
  rewrite (sm_bind_result _ _ _ _ _ Hr2).
  destruct r2 as [[]|e2].
  2:{ exists w2, (inr e2). split; [done|]. split; [done|]. split; [done|].
      assert (inr e2 <> @inl unit SaveError tt) as Hne by discriminate.
      rewrite Hiff2 in Hne. split; [discriminate|].
      intros (b & Hb & [Hb'|Hb']); [congruence|]. unfold N in *. lia. }
  assert (HN2 : N + length row0 <= length (sram w))
    by (destruct (proj1 Hiff2 eq_refl); lia).
  match goal with |- context [sm_for (seq 0 _) ?body w2] =>
    destruct (load_row_offsets 1 (N + length row0) body ltac:(intros; reflexivity)
                ltac:(lia)) as [Hok3 Herr3];
    destruct (sm_for_offsets (fun w => rules_wf (rules w)) body (N + length row0) 9
                Hok3 Herr3 (length row0) 0 w2 Hw2 ltac:(lia))
      as (w3 & r3 & Hr3 & Hw3 & Hlen3 & Hor3 & Hiff3) end.
  exists w3, r3. split; [done|]. split; [done|]. split; [done|].
  rewrite Hiff3. unfold N in *.
  split.
  - intros Hc. exists b0. split; [done|]. right. lia.
  - intros (b & Hb & [Hb'|Hb']); [congruence|]. right. lia.
Qed.

(** An SRAM of 3 bytes with byte 0 set: too short for the save of a 3x3
    world. *)
Definition short_world : World := mkWorld [1%Z; 0%Z; 0%Z] c1_grid conway_rules.

Lemma save_world_result_witness :
  exists w' r, save_world short_world = Some (w', r) /\ r = inr OutOfBounds.
Proof.
  destruct (save_world_result short_world) as (w' & r & H & Hor & Hiff).
  - split; [reflexivity|]. repeat constructor.
  - exists w', r. split; [exact H|]. destruct Hor as [Hr|Hr]; [|exact Hr].
    exfalso. destruct (proj1 Hiff Hr) as (b & Hb & [Hb'|Hb']).
    + vm_compute in Hb. injection Hb as <-. discriminate Hb'.
    + vm_compute in Hb'. lia.
Defined.

Lemma load_world_result_witness :
  exists w' r, load_world short_world = Some (w', r) /\ r = inr OutOfBounds.
Proof.
  destruct (load_world_result short_world) as (w' & r & H & _ & Hor & Hiff).
  - split; [reflexivity|]. repeat constructor.
  - exists w', r. split; [exact H|]. destruct Hor as [Hr|Hr]; [|exact Hr].
    exfalso. destruct (proj1 Hiff Hr) as (b & Hb & [Hb'|Hb']).
    + vm_compute in Hb. injection Hb as <-. discriminate Hb'.
    + vm_compute in Hb'. lia.
Defined.

(** The Save and Load entries of the settings graph, with a rule table of
    the right shape: pressing A panics (the [expect]) exactly when the SRAM
    has no byte 0, or byte 0 is nonzero and the SRAM is shorter than the
    [nodes + 18] bytes of a save. *)
Theorem config_save_load_panics gs k w nd :
  nodes gs !! k = Some nd -> state nd = Menu Save \/ state nd = Menu Load ->
  rules_wf (rules w) ->
  (config_press_a gs k w = None <->
   ~ exists b0, sram w !! 0 = Some b0 /\
       (b0 = 0%Z \/ length (nodes (world w)) + 18 <= length (sram w))).
Proof.
  intros Hnd Hm Hwf. unfold config_press_a. rewrite Hnd. cbn [mbind option_bind].
  destruct Hm as [-> | ->].
  - destruct (save_world_result w Hwf) as (w' & r & H & Hor & Hiff). rewrite H.
    destruct r as [[]|e].
    + split; [discriminate|]. intros Hn. exfalso. apply Hn, Hiff. done.
    + split; [|done]. intros _ Hc. apply Hiff in Hc. discriminate.
  - destruct (load_world_result w Hwf) as (w' & r & H & _ & Hor & Hiff). rewrite H.
    destruct r as [[]|e].
    + split; [discriminate|]. intros Hn. exfalso. apply Hn, Hiff. done.
    + split; [|done]. intros _ Hc. apply Hiff in Hc. discriminate.
Qed.

Lemma config_save_load_panics_witness :
  exists gs, settings_graph conway_rules = Some gs /\
    config_press_a gs 19 short_world = None.
Proof.
  destruct (settings_graph conway_rules) as [gs|] eqn:Hgs; [|vm_compute in Hgs; discriminate Hgs].
  exists gs. split; [reflexivity|].
  assert (Hnd : nodes gs !! 19 = Some (mkNode (Menu Save) 10 9 (Some 53))).
  { pose proof Hgs as Hgs'. vm_compute in Hgs'. injection Hgs' as <-. reflexivity. }
  apply (config_save_load_panics gs 19 short_world (mkNode (Menu Save) 10 9 (Some 53))).
  - exact Hnd.
  - left. reflexivity.
  - split; [reflexivity|]. repeat constructor.
  - intros (b & Hb & [Hb'|Hb']).
    + vm_compute in Hb. injection Hb as <-. discriminate Hb'.
    + vm_compute in Hb'. lia.
Defined.
